(** * Predictive-RNN-Navigation: the model graph of [model.py]

    A shallow embedding of the TensorFlow graph that [model.py] builds:
    the predictive cell, the unrolled loop over time and layers, the
    reinforcement-learning objective, the path-integral consolidation
    operations, the weight utilities, the training loop of
    [reinforcement_learning] and the entry point [main].

    Numbers.  The program computes on float32 tensors.  The embedding
    takes the exact rationals [Q] for them, compared with [==]; rounding,
    infinities and NaN are outside the model.  A tensor of rank 1, 2 or 3
    is a list, a list of rows, a list of matrices.  The operations are
    total: on operands whose shapes TensorFlow accepts they compute what
    TensorFlow computes, and on the others (where TensorFlow refuses to
    build the graph) they truncate to the common part.

    Library primitives that are not rational functions ([tf.sigmoid],
    [tf.tanh], [tf.log], [tf.nn.softmax]), the sampler [tf.multinomial]
    and the environment of [stimulus.py] are section variables. *)

From stdpp Require Import gmap strings list.
From Stdlib Require Import QArith Qabs Qminmax Lqa DecimalNat DecimalString.

Local Open Scope Q_scope.

(** ** Tensors *)

Abbreviation tensor1 := (list Q) (only parsing).
Abbreviation tensor2 := (list (list Q)) (only parsing).
Abbreviation tensor3 := (list (list (list Q))) (only parsing).

Module Tensor.

(** Elementwise binary operation with broadcasting along one axis: an
    operand of size 1 along the axis is repeated. *)
Definition bcast {A : Type} (f : A → A → A) (a b : list A) : list A :=
  match a, b with
  | [x], _ => f x <$> b
  | _, [y] => (λ x, f x y) <$> a
  | _, _ => zip_with f a b
  end.

Definition bop2 (f : Q → Q → Q) : tensor2 → tensor2 → tensor2 :=
  bcast (bcast f).
Definition bop3 (f : Q → Q → Q) : tensor3 → tensor3 → tensor3 :=
  bcast (bop2 f).

Definition add2 := bop2 Qplus.
Definition sub2 := bop2 Qminus.
Definition mul2 := bop2 Qmult.
Definition add3 := bop3 Qplus.
Definition mul3 := bop3 Qmult.

Definition map2 (f : Q → Q) (a : tensor2) : tensor2 :=
  (λ r : tensor1, f <$> r) <$> a.
Definition map3 (f : Q → Q) (a : tensor3) : tensor3 := map2 f <$> a.

(** [tensor * c] and [c * tensor] for a Python number [c]. *)
Definition scale2 (c : Q) : tensor2 → tensor2 := map2 (Qmult c).
Definition scale3 (c : Q) : tensor3 → tensor3 := map3 (Qmult c).

(** [tf.nn.relu], [tf.maximum], [tf.abs], [tf.square]. *)
Definition relu (x : Q) : Q := Qmax 0 x.
Definition relu2 : tensor2 → tensor2 := map2 relu.
Definition maximum2 : tensor2 → tensor2 → tensor2 := bop2 Qmax.

(** [tf.zeros], [tf.ones], [tf.zeros_like]. *)
Definition fill2 (rows cols : nat) (v : Q) : tensor2 :=
  replicate rows (replicate cols v).
Definition zeros_like2 (a : tensor2) : tensor2 := map2 (λ _, 0) a.

(** [a @ b]: entry (r, c) is the dot product of row [r] of [a] with
    column [c] of [b]. *)
Definition dot (u v : tensor1) : Q := foldr Qplus 0 (zip_with Qmult u v).
Definition ncols (a : tensor2) : nat := length (hd [] a).
Definition col (c : nat) (a : tensor2) : tensor1 := (λ r, nth c r 0) <$> a.
Definition matmul (a b : tensor2) : tensor2 :=
  (λ r, (λ c, dot r (col c b)) <$> seq 0 (ncols b)) <$> a.

(** [tf.concat(..., axis=-1)] and [tf.concat(..., axis=1)] of matrices. *)
Definition concat_cols (a b : tensor2) : tensor2 := zip_with app a b.

(** Column slices [a[:, :n]], [a[:, n:]], [a[:, lo:hi]], [a[:, 0::2]],
    [a[:, 1::2]]. *)
Definition cols_to (n : nat) (a : tensor2) : tensor2 := take n <$> a.
Definition cols_from (n : nat) (a : tensor2) : tensor2 := drop n <$> a.
Definition cols_range (lo hi : nat) (a : tensor2) : tensor2 :=
  (λ r, take (hi - lo) (drop lo r)) <$> a.

Fixpoint evens {A : Type} (l : list A) : list A :=
  match l with
  | [] => []
  | x :: l' => x :: match l' with [] => [] | _ :: l'' => evens l'' end
  end.
Definition odds {A : Type} (l : list A) : list A := evens (tail l).

Definition cols_even (a : tensor2) : tensor2 := evens <$> a.
Definition cols_odd (a : tensor2) : tensor2 := odds <$> a.

(** [tf.stack([a, b], axis=-1)] of two matrices, and the slices
    [es[:, :n, ind]] and [es[:, lo:hi, ind]] of the result. *)
Definition stack_last (a b : tensor2) : tensor3 :=
  zip_with (zip_with (λ x y, [x; y])) a b.
Definition slice_ind (lo hi ind : nat) (es : tensor3) : tensor2 :=
  (λ r, (λ p, nth ind p 0) <$> take (hi - lo) (drop lo r)) <$> es.

(** [tf.reduce_mean] and [tf.reduce_sum] over every entry. *)
Definition sum1 (v : tensor1) : Q := foldr Qplus 0 v.
Definition mean1 (v : tensor1) : Q := sum1 v / inject_Z (Z.of_nat (length v)).
Definition flat2 (a : tensor2) : tensor1 := concat a.
Definition flat3 (a : tensor3) : tensor1 := concat (concat a).
Definition reduce_mean2 (a : tensor2) : Q := mean1 (flat2 a).

(** [tf.reshape(v, [rows, cols])] of a flat buffer, row-major. *)
Definition reshape2 (rows cols : nat) (v : tensor1) : tensor2 :=
  (λ r, take cols (drop (r * cols) v)) <$> seq 0 rows.

(** [tf.one_hot(k, depth)]. *)
Definition one_hot (depth k : nat) : tensor1 :=
  (λ j, if (j =? k)%nat then 1 else 0) <$> seq 0 depth.

(** Shape of a matrix: number of rows and the width of each row. *)
Definition shape2 (a : tensor2) : nat * list nat := (length a, length <$> a).

End Tensor.
Import Tensor.

(** [tf.concat([t1; ...; tn], axis=-1)] of matrices. *)
Fixpoint concat_last (ts : list tensor2) : tensor2 :=
  match ts with
  | [] => []
  | [a] => a
  | a :: ts' => concat_cols a (concat_last ts')
  end.

(** [tensor * i] for a Python number [i] on the right. *)
Definition mulc (a : tensor2) (c : Q) : tensor2 := map2 (λ v, v * c) a.

(** ** Configuration and variables

    [par] is the dictionary of [parameters.py]; the fields are the keys
    [model.py] reads. *)

Record Par := {
  num_time_steps : nat;
  batch_size : nat;
  n_input : nat;
  n_pol : nat;
  n_val : nat;
  num_pred_cells : nat;
  h_init : list tensor2;
  failure_penalty : Q;
  discount_rate : Q;
  entropy_cost : Q;
  val_cost : Q;
  error_cost : Q;
  spike_cost : Q;
  omega_c : Q;
  omega_xi : Q;
  training_method : string;
  stabilization : string
}.

(** [self.var_dict]: the LSTM and prediction variables are lists with one
    entry per predictive cell, the policy and value heads are single
    matrices. *)
Record VarDict := {
  Wf : list tensor2; Wi : list tensor2; Wo : list tensor2; Wc : list tensor2;
  Uf : list tensor2; Ui : list tensor2; Uo : list tensor2; Uc : list tensor2;
  bf : list tensor2; bi : list tensor2; bo : list tensor2; bc : list tensor2;
  W_pred : list tensor2; b_pred : list tensor2;
  W_pol_out : tensor2; b_pol_out : tensor2;
  W_val_out : tensor2; b_val_out : tensor2
}.

(** What the loop records in [self]: one entry per time step, and for the
    prediction errors one list per cell with two entries per time step. *)
Record Records := {
  input_data : list tensor2;
  mask_rec : list tensor2;
  pol_out_rec : list tensor2;
  val_out_rec : list tensor2;
  action_rec : list tensor2;
  reward_rec : list tensor2;
  total_pred_error : list (list Q);
  stim_pred_error : list (list Q);
  rew_pred_error : list (list Q);
  act_pred_error : list (list Q);
  expected_reward_vector : list tensor2;
  actual_reward_vector : list tensor2
}.

(** The Python variables the loop carries from one iteration to the next. *)
Record Carry := {
  h : list tensor2;
  c : list tensor2;
  error_signal : tensor2;
  reward : tensor2;
  action : tensor2;
  mask : tensor2
}.

Section Graph.

Variable par : Par.
Variable var_dict : VarDict.

(** [tf.sigmoid], [tf.tanh], [tf.nn.softmax(., 1)]. *)
Variables sigmoid tanh : Q → Q.
Variable softmax : tensor2 → tensor2.
(** [tf.multinomial(logits, 1)] at time step [t]: the index drawn for
    batch row [b] with logits [row]. *)
Variable multinomial : nat → nat → tensor1 → nat.
(** [stimulus_access.make_inputs()] and [stimulus_access.agent_action(action,
    mask)] at time step [t]: the flat buffer of the returned array. *)
Variable make_inputs : nat → tensor1.
Variable agent_action : nat → tensor2 → tensor2 → tensor1.

(** [self.time_mask]: [tf.unstack(tf.ones([T, B]), axis=0)]. *)
Definition time_mask : list tensor1 :=
  replicate (num_time_steps par) (replicate (batch_size par) 1).

(** *** [predictive_cell] *)

Definition pos_err (x h : tensor2) (cell_num : nat) : tensor2 :=
  relu2 (sub2 (sub2 x (matmul h (W_pred var_dict !!! cell_num)))
              (b_pred var_dict !!! cell_num)).

Definition neg_err (x h : tensor2) (cell_num : nat) : tensor2 :=
  relu2 (sub2 (add2 (matmul h (W_pred var_dict !!! cell_num))
                    (b_pred var_dict !!! cell_num)) x).

(** One gate: [act(rnn_input @ W[cell_num] + h @ U[cell_num] + b[cell_num])]. *)
Definition gate (act : Q → Q) (W U b : list tensor2)
    (rnn_input h : tensor2) (cell_num : nat) : tensor2 :=
  map2 act (add2 (add2 (matmul rnn_input (W !!! cell_num))
                       (matmul h (U !!! cell_num))) (b !!! cell_num)).

(** Returns the extended [self.expected_reward_vector] and [(h, c,
    error_signal)]. *)
Definition predictive_cell (erv : list tensor2) (x : tensor2)
    (y : option tensor2) (h c : tensor2) (cell_num : nat)
    : list tensor2 * (tensor2 * tensor2 * tensor2) :=
  let erv :=
    if (cell_num =? 1)%nat
    then erv ++ [cols_range (n_input par) (n_input par + 1)
                   (add2 (matmul h (W_pred var_dict !!! cell_num))
                         (b_pred var_dict !!! cell_num))]
    else erv in
  let error_signal := concat_last [pos_err x h cell_num; neg_err x h cell_num] in
  let rnn_input :=
    match y with
    | None => error_signal
    | Some y => concat_last [error_signal; y]
    end in
  let f := gate sigmoid (Wf var_dict) (Uf var_dict) (bf var_dict) rnn_input h cell_num in
  let i := gate sigmoid (Wi var_dict) (Ui var_dict) (bi var_dict) rnn_input h cell_num in
  let cn := gate tanh (Wc var_dict) (Uc var_dict) (bc var_dict) rnn_input h cell_num in
  let c := add2 (mul2 f c) (mul2 i cn) in
  let o := gate sigmoid (Wo var_dict) (Uo var_dict) (bo var_dict) rnn_input h cell_num in
  let h := mul2 o (map2 tanh c) in
  (erv, (h, c, error_signal)).

(** *** One predictive cell of one time step (the body of the loop over [i]) *)

(** The bottom-up input of cell [i]. *)
Definition cell_input (i : nat) (inputs error_signal reward action : tensor2)
    : tensor2 :=
  let x := if (i =? 0)%nat then inputs else error_signal in
  concat_last [x; mulc reward (inject_Z (Z.of_nat i));
                  mulc action (inject_Z (Z.of_nat i))].

(** [es]: the two halves of the error signal stacked on a last axis. *)
Definition split_error (error_signal : tensor2) : tensor3 :=
  stack_last (cols_to (n_input par + 1 + n_pol par) error_signal)
             (cols_from (n_input par + 1 + n_pol par) error_signal).

(** The error signal passed to the next cell up. *)
Definition forward_error (es : tensor3) : tensor2 :=
  let error_signal :=
    concat_last [slice_ind 0 (n_input par) 0 es;
                 slice_ind 0 (n_input par) 1 es] in
  maximum2 (cols_even error_signal) (cols_odd error_signal).

Definition append_at {A : Type} (i : nat) (v : A) (ll : list (list A))
    : list (list A) :=
  alter (λ l, l ++ [v]) i ll.

Definition last_or {A : Type} (d : A) (l : list A) : A := default d (last l).

(** The diagnostics appended for one polarity [ind]. *)
Definition record_errors (i ind : nat) (es : tensor3) (r : Records) : Records :=
  let stim := reduce_mean2 (slice_ind 0 (n_input par) ind es) in
  let rew := reduce_mean2 (slice_ind (n_input par) (n_input par + 1) ind es) in
  let act := reduce_mean2 (slice_ind (n_input par + 1) (n_input par + 10) ind es) in
  {| input_data := input_data r;
     mask_rec := mask_rec r;
     pol_out_rec := pol_out_rec r;
     val_out_rec := val_out_rec r;
     action_rec := action_rec r;
     reward_rec := reward_rec r;
     total_pred_error := append_at i (stim + rew + act) (total_pred_error r);
     stim_pred_error := append_at i stim (stim_pred_error r);
     rew_pred_error := append_at i rew (rew_pred_error r);
     act_pred_error := append_at i act (act_pred_error r);
     expected_reward_vector := expected_reward_vector r;
     actual_reward_vector := actual_reward_vector r |}.

Definition cell_step (inputs : tensor2) (s : Carry * Records) (i : nat)
    : Carry * Records :=
  let '(k, r) := s in
  let y := if (i =? num_pred_cells par - 1)%nat then None
           else Some (h k !!! S i) in
  let x := cell_input i inputs (error_signal k) (reward k) (action k) in
  let '(erv, (hi, ci, err)) :=
    predictive_cell (expected_reward_vector r) x y (h k !!! i) (c k !!! i) i in
  let es := split_error err in
  let r := record_errors i 1 es (record_errors i 0 es
    {| input_data := input_data r;
       mask_rec := mask_rec r;
       pol_out_rec := pol_out_rec r;
       val_out_rec := val_out_rec r;
       action_rec := action_rec r;
       reward_rec := reward_rec r;
       total_pred_error := total_pred_error r;
       stim_pred_error := stim_pred_error r;
       rew_pred_error := rew_pred_error r;
       act_pred_error := act_pred_error r;
       expected_reward_vector := erv;
       actual_reward_vector := actual_reward_vector r |}) in
  ({| h := <[i := hi]> (h k);
      c := <[i := ci]> (c k);
      error_signal := forward_error es;
      reward := reward k;
      action := action k;
      mask := mask k |}, r).

(** *** One time step (the body of the loop over [t]) *)

(** [tf.cast(tf.equal(reward, 0.), tf.float32)]. *)
Definition continue_trial (reward : tensor2) : tensor2 :=
  map2 (λ v, if Qeq_bool v 0 then 1 else 0) reward.

(** [tf.one_hot(tf.squeeze(tf.multinomial(pol_out, 1)), n_pol)]. *)
Definition sample_action (t : nat) (pol_out : tensor2) : tensor2 :=
  imap (λ b row, one_hot (n_pol par) (multinomial t b row)) pol_out.

(** The reward fed back at step [t]: the environment's answer, or in the
    last two steps the constant [par['failure_penalty']], a scalar that
    enters the product below as a tensor of shape [1, 1]. *)
Definition feedback (t : nat) (action mask : tensor2) : tensor2 :=
  if (t <? num_time_steps par - 2)%nat
  then reshape2 (batch_size par) 1 (agent_action t action mask)
  else [[failure_penalty par]].

Definition time_step (s : Carry * Records) (t : nat) : Carry * Records :=
  let '(k0, r0) := s in
  let inputs := reshape2 (batch_size par) (n_input par) (make_inputs t) in
  let '(k, r) :=
    fold_left (cell_step inputs) (seq 0 (num_pred_cells par))
      (k0,
       {| input_data := input_data r0 ++ [inputs];
          mask_rec := mask_rec r0;
          pol_out_rec := pol_out_rec r0;
          val_out_rec := val_out_rec r0;
          action_rec := action_rec r0;
          reward_rec := reward_rec r0;
          total_pred_error := total_pred_error r0;
          stim_pred_error := stim_pred_error r0;
          rew_pred_error := rew_pred_error r0;
          act_pred_error := act_pred_error r0;
          expected_reward_vector := expected_reward_vector r0;
          actual_reward_vector := actual_reward_vector r0 |}) in
  let logits :=
    add2 (matmul (last_or [] (h k)) (W_pol_out var_dict)) (b_pol_out var_dict) in
  let action' := sample_action t logits in
  let pol_out := softmax logits in
  let val_out :=
    add2 (matmul (last_or [] (h k)) (W_val_out var_dict)) (b_val_out var_dict) in
  let mask' := mul2 (mask k) (continue_trial (reward k)) in
  let feedback_reward := feedback t action' mask' in
  let reward' :=
    mul2 (mul2 feedback_reward mask')
         (reshape2 (batch_size par) 1 (time_mask !!! t)) in
  ({| h := h k;
      c := c k;
      error_signal := error_signal k;
      reward := reward';
      action := action';
      mask := mask' |},
   {| input_data := input_data r;
      mask_rec := mask_rec r ++ [mask'];
      pol_out_rec := pol_out_rec r ++ [pol_out];
      val_out_rec := val_out_rec r ++ [val_out];
      action_rec := action_rec r ++ [action'];
      reward_rec := reward_rec r ++ [reward'];
      total_pred_error := total_pred_error r;
      stim_pred_error := stim_pred_error r;
      rew_pred_error := rew_pred_error r;
      act_pred_error := act_pred_error r;
      expected_reward_vector := expected_reward_vector r;
      actual_reward_vector := actual_reward_vector r ++ [reward k] |}).

(** *** [rnn_cell_loop] *)

(** The state before the first step.  [error_signal] is not yet bound in
    the source; it is first read by cell 1, after cell 0 has set it. *)
Definition init_carry : Carry :=
  {| h := (λ i, zeros_like2 (h_init par !!! i)) <$> seq 0 (num_pred_cells par);
     c := (λ i, zeros_like2 (h_init par !!! i)) <$> seq 0 (num_pred_cells par);
     error_signal := [];
     reward := fill2 (batch_size par) (n_val par) 0;
     action := fill2 (batch_size par) (n_pol par) 0;
     mask := fill2 (batch_size par) 1 1 |}.

Definition init_records : Records :=
  {| input_data := [];
     mask_rec := [];
     pol_out_rec := [];
     val_out_rec := [];
     action_rec := [];
     reward_rec := [];
     total_pred_error := replicate (num_pred_cells par) [];
     stim_pred_error := replicate (num_pred_cells par) [];
     rew_pred_error := replicate (num_pred_cells par) [];
     act_pred_error := replicate (num_pred_cells par) [];
     expected_reward_vector := [];
     actual_reward_vector := [] |}.

(** The loop after its first [n] steps, and the whole loop. *)
Definition run_steps (n : nat) : Carry * Records :=
  fold_left time_step (seq 0 n) (init_carry, init_records).

Definition rnn_cell_loop : Carry * Records :=
  run_steps (num_time_steps par).

End Graph.

(** ** Trainable variables and their names

    [declare_variables] creates, inside the scope [network], one variable
    [name + str(i)] per LSTM prefix and cell and one variable per head
    prefix; [tf.trainable_variables()] lists them in that order, and
    [var.op.name] is the name with the scope in front. *)

Definition str (i : nat) : string := NilEmpty.string_of_uint (Nat.to_uint i).

Definition lstm_var_prefixes (vd : VarDict) : list (string * list tensor2) :=
  [("Wf", Wf vd); ("Wi", Wi vd); ("Wo", Wo vd); ("Wc", Wc vd);
   ("Uf", Uf vd); ("Ui", Ui vd); ("Uo", Uo vd); ("Uc", Uc vd);
   ("bf", bf vd); ("bi", bi vd); ("bo", bo vd); ("bc", bc vd);
   ("W_pred", W_pred vd); ("b_pred", b_pred vd)]%string.

Definition rl_var_prefixes (vd : VarDict) : list (string * tensor2) :=
  [("W_pol_out", W_pol_out vd); ("b_pol_out", b_pol_out vd);
   ("W_val_out", W_val_out vd); ("b_val_out", b_val_out vd)]%string.

Definition scoped (name : string) : string := ("network/" ++ name)%string.

Definition trainable_variables (par : Par) (vd : VarDict)
    : list (string * tensor2) :=
  concat ((λ '(name, l),
            (λ i, (scoped (name ++ str i), l !!! i))
              <$> seq 0 (num_pred_cells par))
          <$> lstm_var_prefixes vd)
  ++ ((λ '(name, v), (scoped name, v)) <$> rl_var_prefixes vd).

(** Python's [sub in s] on strings. *)
Fixpoint starts_with (sub s : string) : bool :=
  match sub, s with
  | EmptyString, _ => true
  | String _ _, EmptyString => false
  | String a sub', String b s' => Ascii.eqb a b && starts_with sub' s'
  end.

Fixpoint contains (sub s : string) : bool :=
  starts_with sub s
  || match s with
     | EmptyString => false
     | String _ s' => contains sub s'
     end.

(** ** [make_recurrent_weights_positive]

    Running [self.reset_rnn_weights] on the variables: each variable whose
    name contains [W_rnn] is assigned [tf.maximum(1e-9, var)]. *)

Definition make_recurrent_weights_positive (vars : list (string * tensor2))
    : list (string * tensor2) :=
  (λ '(n, v), if contains "W_rnn" n
              then (n, map2 (Qmax (1 # 1000000000)) v)
              else (n, v)) <$> vars.


(** ** Stabilization records

    The dictionaries of [optimize] and [pathint_stabilization], keyed by
    [var.op.name]. *)

Record Stab := {
  big_omega_var : gmap string tensor2;
  prev_weights : gmap string tensor2;
  small_omega_var : gmap string tensor2;
  small_omega_var_div : gmap string tensor2
}.

(** Every record starts as [tf.zeros(var.get_shape())]. *)
Definition init_stab (vars : list (string * tensor2)) : Stab :=
  let zeros := list_to_map ((λ '(n, v), (n, zeros_like2 v)) <$> vars) in
  {| big_omega_var := zeros;
     prev_weights := zeros;
     small_omega_var := zeros;
     small_omega_var_div := zeros |}.

Definition abs2 : tensor2 → tensor2 := map2 Qabs.
Definition div2 : tensor2 → tensor2 → tensor2 := bop2 Qdiv.
Definition square (v : Q) : Q := v * v.

Section Pathint.

Variable par : Par.
Variable vars : list (string * tensor2).

(** The increment of [big_omega_var[n]], by training method. *)
Definition big_omega_increment (s : Stab) (n : string) : option tensor2 :=
  if decide (training_method par = "RL"%string) then
    Some (div2 (abs2 (small_omega_var s !!! n))
               (map2 (Qplus (omega_xi par)) (small_omega_var_div s !!! n)))
  else if decide (training_method par = "SL"%string) then
    Some (div2 (relu2 (small_omega_var s !!! n))
               (map2 (Qplus (omega_xi par))
                     (map2 square (small_omega_var_div s !!! n))))
  else None.

(** Running [self.update_big_omega]: one [tf.assign_add] per variable.  Every
    increment is computed from the accumulators [s] the group starts in. *)
Definition update_big_omega (s : Stab) : Stab :=
  {| big_omega_var :=
       fold_left (λ big '(n, _),
                    match big_omega_increment s n with
                    | Some inc => <[n := add2 (big !!! n) inc]> big
                    | None => big
                    end) vars (big_omega_var s);
     prev_weights := prev_weights s;
     small_omega_var := small_omega_var s;
     small_omega_var_div := small_omega_var_div s |}.

(** Running [self.update_small_omega] after a training step, from the
    optimizer's last deltas [delta_grads], the gradients [grads] of the
    policy loss and the two reward variables: one pair of [tf.assign_add]
    per variable. *)
Definition update_small_omega (delta_grads grads : gmap string tensor2)
    (current_reward previous_reward : Q) (s : Stab) : Stab :=
  let delta_reward := current_reward - previous_reward in
  if decide (training_method par = "RL"%string) then
    {| big_omega_var := big_omega_var s;
       prev_weights := prev_weights s;
       small_omega_var :=
         fold_left (λ m '(n, _),
                      <[n := add2 (m !!! n)
                                  (mulc (delta_grads !!! n) delta_reward)]> m)
                   vars (small_omega_var s);
       small_omega_var_div :=
         fold_left (λ m '(n, _),
                      <[n := add2 (m !!! n)
                                  (abs2 (mulc (delta_grads !!! n)
                                              delta_reward))]> m)
                   vars (small_omega_var_div s) |}
  else if decide (training_method par = "SL"%string) then
    {| big_omega_var := big_omega_var s;
       prev_weights := prev_weights s;
       small_omega_var :=
         fold_left (λ m '(n, _),
                      <[n := add2 (m !!! n)
                                  (mul2 (map2 Qopp (delta_grads !!! n))
                                        (grads !!! n))]> m)
                   vars (small_omega_var s);
       small_omega_var_div :=
         fold_left (λ m '(n, _),
                      <[n := add2 (m !!! n) (delta_grads !!! n)]> m)
                   vars (small_omega_var_div s) |}
  else s.

(** Running [self.reset_small_omega]: both accumulators times [0.0]. *)
Definition reset_small_omega (s : Stab) : Stab :=
  {| big_omega_var := big_omega_var s;
     prev_weights := prev_weights s;
     small_omega_var :=
       fold_left (λ m '(n, _), <[n := mulc (m !!! n) 0]> m) vars
                 (small_omega_var s);
     small_omega_var_div :=
       fold_left (λ m '(n, _), <[n := mulc (m !!! n) 0]> m) vars
                 (small_omega_var_div s) |}.

(** Running [self.reset_prev_vars]: [prev_weights[n]] is assigned [var]. *)
Definition reset_prev_vars (s : Stab) : Stab :=
  {| big_omega_var := big_omega_var s;
     prev_weights :=
       fold_left (λ m '(n, v), <[n := v]> m) vars (prev_weights s);
     small_omega_var := small_omega_var s;
     small_omega_var_div := small_omega_var_div s |}.

(** [self.aux_loss]: the variables with [val] in their name are left out. *)
Definition aux_loss (s : Stab) : Q :=
  sum1 ((λ '(n, v),
          omega_c par *
          sum1 (flat2 (mul2 (big_omega_var s !!! n)
                            (map2 square (sub2 (prev_weights s !!! n) v)))))
        <$> filter (λ nv, contains "val" nv.1 = false) vars).

End Pathint.

(** ** The objective of [optimize] *)

Definition sub3 := bop3 Qminus.
Definition reduce_mean3 (a : tensor3) : Q := mean1 (flat3 a).

(** [tf.reduce_sum(a, axis=1)] of a tensor of rank 3: for every index of
    axis 0, the sum of the rows of that matrix. *)
Definition reduce_sum_axis1 (a : tensor3) : tensor2 :=
  (λ m, (λ j, sum1 (col j m)) <$> seq 0 (ncols m)) <$> a.

(** [tf.reduce_sum(a, axis=2)]: the sum of every row. *)
Definition reduce_sum_axis2 (a : tensor3) : tensor2 :=
  (λ m : tensor2, sum1 <$> m) <$> a.

Definition epsilon : Q := 1 # 10000000.

Inductive exn :=
  | Exception (msg : string)
  | AttributeError (attr : string)
  | UnboundLocalError (name : string).

Section Objective.

Variable par : Par.
(** [tf.log]. *)
Variable log : Q → Q.
(** The state [rnn_cell_loop] ends in. *)
Variable k : Carry.
Variable r : Records.
Variable vars : list (string * tensor2).
Variable stab : Stab.

(** [self.h]: every step appended the same list object [h], which the
    loop updates in place, so that all entries are the final [h]. *)
Definition h_rec : list (list tensor2) := replicate (num_time_steps par) (h k).

(** [self.spike_loss], from [self.time_mask] as a list of vectors. *)
Definition spike_loss : Q :=
  spike_cost par *
  reduce_mean3
    ((λ '(hs, mask, time_mask),
       mulc (mul2 mask [time_mask]) (reduce_mean3 hs))
     <$> zip (zip h_rec (mask_rec r)) (time_mask par)).

(** [self.time_mask] reshaped to [T, B, 1]. *)
Definition time_mask3 : tensor3 :=
  (λ row : tensor1, (λ v, [v]) <$> row) <$> time_mask par.

(** [val_out]: the value outputs and one more step of zeros. *)
Definition val_out : tensor3 :=
  val_out_rec r ++ [fill2 (batch_size par) (n_val par) 0].

Definition terminal_state : tensor3 :=
  map3 (λ v, if negb (Qeq_bool v 0) then 1 else 0) (reward_rec r).

Definition pred_val : tensor3 :=
  add3 (reward_rec r)
       (mul3 (scale3 (discount_rate par) (drop 1 val_out))
             (map3 (λ v, 1 - v) terminal_state)).

Definition advantage : tensor3 :=
  sub3 pred_val (take (length val_out - 1) val_out).

Definition log_pol : tensor3 := map3 (λ p, log (epsilon + p)) (pol_out_rec r).

Definition pol_loss : Q :=
  - reduce_mean3
      (mul3 (mul3 (mul3 (mul3 advantage (mask_rec r)) time_mask3)
                  (action_rec r)) log_pol).

Definition val_loss : Q :=
  (1 # 2) * val_cost par *
  reduce_mean3
    (mul3 (mul3 (mask_rec r) time_mask3)
          (map3 square (sub3 (take (length val_out - 1) val_out) pred_val))).

Definition entropy_terms : tensor3 :=
  mul3 (mul3 (mul3 (mask_rec r) time_mask3) (pol_out_rec r)) log_pol.

Definition entropy_loss : Q :=
  - entropy_cost par * reduce_mean2 (reduce_sum_axis1 entropy_terms).

Definition pred_loss : Q :=
  error_cost par * mean1 (concat (total_pred_error r)).

Definition RL_loss : Q := pol_loss + val_loss - entropy_loss + pred_loss.

(** [total_loss], or the exception the branch on the training method runs
    into: the [SL] branch reads [self.target_data], which is never set, and
    with any other method [sup_loss] is not bound. *)
Definition total_loss : exn + Q :=
  if decide (training_method par = "SL"%string) then
    inl (AttributeError "target_data")
  else if decide (training_method par = "RL"%string) then
    inr (0 + RL_loss + aux_loss par vars stab + spike_loss)
  else inl (UnboundLocalError "sup_loss").

End Objective.

(** ** [main]

    What the entry point does before it returns or raises, as the trace of
    its effects.  [update_dependencies] belongs to [parameters.py]; it
    rewrites the configuration. *)

Inductive event :=
  | UpdateDependencies
  | ResetDefaultGraph
  | PrintKeyInfo
  | BuildModel
  | Train.

(** [reinforcement_learning]: the graph is reset, the configuration is
    printed, then [Model()] declares the variables and builds the graph,
    and the training loop runs. *)
Definition reinforcement_learning : list event :=
  [ResetDefaultGraph; PrintKeyInfo; BuildModel; Train].

Definition main (update_dependencies : Par → Par) (par : Par)
    : list event * option exn :=
  let par := update_dependencies par in
  if decide (training_method par = "SL"%string) then
    ([UpdateDependencies],
     Some (Exception "This code does not support supervised learning at this time."))
  else if decide (training_method par = "RL"%string) then
    (UpdateDependencies :: reinforcement_learning, None)
  else
    ([UpdateDependencies], Some (Exception "Select a valid learning method.")).

(** ** [reset_weights]

    Running [self.reset_weights] on the variables.  [initialize_weight] is
    the function of [parameters.py], with the connection probability of the
    configuration: [initialize_weight k shape] is the matrix it drew, when
    the graph was built, for the variable at position [k]. *)

Definition reset_weights (initialize_weight : nat → nat * list nat → tensor2)
    (vars : list (string * tensor2)) : list (string * tensor2) :=
  imap (λ k '(n, v),
          if contains "b" n then (n, mulc v 0)
          else if contains "W" n then (n, initialize_weight k (shape2 v))
          else (n, v)) vars.

(** ** The training loop of [reinforcement_learning]

    What one call of [sess.run] in iteration [i] gives and what the
    optimizer did, as far as the loop uses it.  Inside the first call of an
    iteration TensorFlow does not order [train_op], [update_current_reward]
    and [update_small_omega]: the optimizer deltas and the current reward
    that [update_small_omega] reads there are whatever the schedule gives. *)

Record Batch := {
  seen_delta_grads : gmap string tensor2;
  seen_current_reward : Q;
  delta_grads : gmap string tensor2;
  grads : gmap string tensor2;
  reward_list : tensor3;
  new_vars : list (string * tensor2)
}.

(** The variables of the session and the Python variables of the loop. *)
Record Session := {
  session_vars : list (string * tensor2);
  session_stab : Stab;
  current_reward : Q;
  previous_reward : Q;
  accuracy_iter : list Q
}.

(** [tf.reduce_sum(a, axis=0)] and [np.sum(a, axis=0)] of a tensor of rank
    3: the sum of its matrices. *)
Definition reduce_sum_axis0 (a : tensor3) : tensor2 :=
  match a with
  | [] => []
  | m :: ms => fold_left (zip_with (zip_with Qplus)) ms m
  end.

(** [np.mean] of a list. *)
Definition np_mean (l : tensor1) : Q := mean1 l.

(** [l[-n:]]. *)
Definition last_n {A : Type} (n : nat) (l : list A) : list A :=
  drop (length l - n) l.

(** The value [update_current_reward] assigns, and [rew] of the loop. *)
Definition mean_reward (reward : tensor3) : Q :=
  reduce_mean2 (reduce_sum_axis0 reward).

(** [acc = np.mean(np.sum(reward>0, axis=0))]. *)
Definition accuracy (reward : tensor3) : Q :=
  reduce_mean2
    (reduce_sum_axis0 (map3 (λ v, if Qle_bool v 0 then 0 else 1) reward)).

(** The test that ends the loop after iteration [i]. *)
Definition reached_threshold (i : nat) (accuracy_iter : list Q) : bool :=
  (5000 <? Z.of_nat i)%Z
  && (negb (Qle_bool (np_mean (last_n 5000 accuracy_iter)) (98 # 100))
      || ((25000 <? Z.of_nat i)%Z
          && negb (Qle_bool (np_mean (last_n 20 accuracy_iter)) (95 # 100)))).

Section Training.

Variable par : Par.
(** [par['n_train_batches']]. *)
Variable n_train_batches : nat.
Variable batch : nat → Batch.

(** The body of the loop up to the accuracy record.  The model has the
    attribute [update_current_reward] only when [pathint_stabilization] ran
    in RL mode; without a stabilization method nothing is run and
    [reward_list] is not bound. *)
Definition iteration (i : nat) (s : Session) : exn + Session :=
  let b := batch i in
  if decide (stabilization par = "pathint"%string) then
    if decide (training_method par = "RL"%string) then
      let names := session_vars s in
      let stab1 :=
        update_small_omega par names (seen_delta_grads b) (grads b)
          (seen_current_reward b) (previous_reward s) (session_stab s) in
      let current := mean_reward (reward_list b) in
      let stab2 :=
        if (0 <? i)%nat
        then update_small_omega par names (delta_grads b) (grads b) current
               (previous_reward s) stab1
        else stab1 in
      inr {| session_vars := new_vars b;
             session_stab := stab2;
             current_reward := current;
             previous_reward := current;
             accuracy_iter := accuracy_iter s ++ [accuracy (reward_list b)] |}
    else inl (AttributeError "update_current_reward")
  else if decide (stabilization par = "EWC"%string) then
    inl (AttributeError "update_current_reward")
  else inl (UnboundLocalError "reward_list").

(** The loop over the iterations [todo], with its [break]. *)
Fixpoint iterate (todo : list nat) (s : Session) : Session * option exn :=
  match todo with
  | [] => (s, None)
  | i :: todo' =>
      match iteration i s with
      | inl e => (s, Some e)
      | inr s' =>
          if reached_threshold i (accuracy_iter s') then (s', None)
          else iterate todo' s'
      end
  end.

(** The session when the loop starts: the variables are initialized and
    [reset_prev_vars] has run. *)
Definition session_start (vars : list (string * tensor2)) : Session :=
  {| session_vars := vars;
     session_stab := reset_prev_vars vars (init_stab vars);
     current_reward := -1;
     previous_reward := -1;
     accuracy_iter := [] |}.

(** The operations after the loop ([reset_adam_op] is the optimizer's). *)
Definition session_end (s : Session) : Session :=
  let stab1 := reset_prev_vars (session_vars s) (session_stab s) in
  {| session_vars := session_vars s;
     session_stab :=
       if decide (stabilization par = "pathint"%string)
       then reset_small_omega (session_vars s) stab1 else stab1;
     current_reward := current_reward s;
     previous_reward := previous_reward s;
     accuracy_iter := accuracy_iter s |}.

(** The session from the initialization of the variables to the end. *)
Definition training_loop (vars : list (string * tensor2))
    : Session * option exn :=
  match iterate (seq 0 n_train_batches) (session_start vars) with
  | (s, None) => (session_end s, None)
  | (s, Some e) => (s, Some e)
  end.

End Training.

(** * Notions for the properties *)

(** Length of a broadcast result. *)
Definition blen (m n : nat) : nat :=
  if (m =? 1)%nat then n else if (n =? 1)%nat then m else m `min` n.

(** The widths of the rows of a matrix. *)
Definition widths (a : tensor2) : list nat := length <$> a.

(** Entry [(r, j)] of a matrix. *)
Definition entry2 (a : tensor2) (r j : nat) : option Q := a !! r ≫= (.!! j).

Definition entry3 (a : tensor3) (t r j : nat) : option Q :=
  a !! t ≫= (λ m, entry2 m r j).

(** Equality of matrices up to [==] on the entries. *)
Definition teq2 (a b : tensor2) : Prop := Forall2 (Forall2 Qeq) a b.

Definition nonneg2 (a : tensor2) : Prop := Forall (Forall (λ v, 0 <= v)) a.

(** The cells of a step leave the reward, the action, the mask and what
    was recorded of them alone. *)
Definition frame (s s' : Carry * Records) : Prop :=
  reward s'.1 = reward s.1 ∧ action s'.1 = action s.1 ∧ mask s'.1 = mask s.1
  ∧ mask_rec s'.2 = mask_rec s.2 ∧ reward_rec s'.2 = reward_rec s.2
  ∧ action_rec s'.2 = action_rec s.2.

(** A vector as a tensor of shape [B, 1]. *)
Definition colT (v : tensor1) : tensor2 := (λ x, [x]) <$> v.

(** One entry of [continue_trial]. *)
Definition is_zero (v : Q) : Q := if Qeq_bool v 0 then 1 else 0.

Definition bit (q : Q) : Prop := q == 0 ∨ q == 1.

(** The recorded mask and reward of batch element [b] at step [t]. *)
Definition mask_at (r : Records) (t b : nat) : option Q :=
  entry3 (mask_rec r) t b 0.

Definition reward_at (r : Records) (t b : nat) : option Q :=
  entry3 (reward_rec r) t b 0.

(** The mask and the reward carried into a step are columns of [B]
    entries, and the mask holds zeros and ones. *)
Definition good (par : Par) (s : Carry * Records) : Prop :=
  ∃ vm vr,
    mask s.1 = colT vm ∧ reward s.1 = colT vr
    ∧ length vm = batch_size par ∧ length vr = batch_size par
    ∧ Forall bit vm.

(** ** A small run

    Two cells, three time steps, two batch elements, two input channels,
    two actions, one hidden unit per cell.  All weights and biases are
    zero, so every pre-activation of a gate is 0, where the sigmoid is 1/2
    and the hyperbolic tangent is 0, and the policy logits are equal,
    where the softmax is uniform: the stand-ins below take exactly these
    values there.  The sampler always draws action 0 and the environment
    always observes [3, 4] and answers with reward 0. *)

Module Run.

Definition par : Par :=
  {| num_time_steps := 3;
     batch_size := 2;
     n_input := 2;
     n_pol := 2;
     n_val := 1;
     num_pred_cells := 2;
     h_init := [fill2 2 1 0; fill2 2 1 0];
     failure_penalty := -1;
     discount_rate := 9 # 10;
     entropy_cost := 1;
     val_cost := 1;
     error_cost := 1;
     spike_cost := 1;
     omega_c := 1;
     omega_xi := 1 # 100;
     training_method := "RL";
     stabilization := "pathint" |}.

Definition var_dict : VarDict :=
  {| Wf := [fill2 11 1 0; fill2 10 1 0];
     Wi := [fill2 11 1 0; fill2 10 1 0];
     Wo := [fill2 11 1 0; fill2 10 1 0];
     Wc := [fill2 11 1 0; fill2 10 1 0];
     Uf := [fill2 1 1 0; fill2 1 1 0];
     Ui := [fill2 1 1 0; fill2 1 1 0];
     Uo := [fill2 1 1 0; fill2 1 1 0];
     Uc := [fill2 1 1 0; fill2 1 1 0];
     bf := [fill2 1 1 0; fill2 1 1 0];
     bi := [fill2 1 1 0; fill2 1 1 0];
     bo := [fill2 1 1 0; fill2 1 1 0];
     bc := [fill2 1 1 0; fill2 1 1 0];
     W_pred := [fill2 1 5 0; fill2 1 5 0];
     b_pred := [fill2 1 5 0; fill2 1 5 0];
     W_pol_out := fill2 1 2 0;
     b_pol_out := fill2 1 2 0;
     W_val_out := fill2 1 1 0;
     b_val_out := fill2 1 1 0 |}.

Definition sigmoid (x : Q) : Q := (1 # 2) + x / 4.
Definition tanh (x : Q) : Q := x.
Definition softmax (a : tensor2) : tensor2 :=
  (λ row : tensor1, (λ _, 1 / inject_Z (Z.of_nat (length row))) <$> row) <$> a.
Definition multinomial (t b : nat) (row : tensor1) : nat := 0%nat.
Definition make_inputs (t : nat) : tensor1 := [3; 4; 3; 4].
Definition agent_action (t : nat) (action mask : tensor2) : tensor1 := [0; 0].

Definition steps (n : nat) : Carry * Records :=
  run_steps par var_dict sigmoid tanh softmax multinomial make_inputs
    agent_action n.

Definition loop : Carry * Records :=
  rnn_cell_loop par var_dict sigmoid tanh softmax multinomial make_inputs
    agent_action.

End Run.

(** The input of cell [i] as the specification has it: the cell's own input, the
    reward and the action, for every cell. *)
Definition cell_input_unscaled (i : nat)
    (inputs error_signal reward action : tensor2) : tensor2 :=
  concat_last [if (i =? 0)%nat then inputs else error_signal; reward; action].

(** The maximum of every two neighbours of a row: entries 0 and 1, entries
    2 and 3, and so on. *)
Definition pairmax (e : tensor1) : tensor1 := zip_with Qmax (evens e) (odds e).

(** The width of a cell input: the input channels, the reward, the action. *)
Definition width (par : Par) : nat := (n_input par + 1 + n_pol par)%nat.

(** What the loop keeps of a row of the error signal: the first [n_input]
    positive channels followed by the first [n_input] negative channels. *)
Definition kept (par : Par) (row : tensor1) : tensor1 :=
  take (n_input par) row ++ take (n_input par) (drop (width par) row).

(** The forwarded error as the specification has it: at every input channel the
    maximum of the positive and the negative channel of that position. *)
Definition forward_error_paired (par : Par) (pos neg : tensor2) : tensor2 :=
  maximum2 (cols_to (n_input par) pos) (cols_to (n_input par) neg).

(** The error signal of cell 0 at the first step of the small run. *)
Definition run_first_error : tensor2 :=
  let k := (Run.steps 0).1 in
  let x := cell_input 0 (reshape2 2 2 (Run.make_inputs 0))
             (error_signal k) (reward k) (action k) in
  (predictive_cell Run.par Run.var_dict Run.sigmoid Run.tanh [] x
     (Some (h k !!! 1%nat)) (h k !!! 0%nat) (c k !!! 0%nat) 0).2.2.

(** The widths of the rows of every matrix of a tensor of rank 3. *)
Definition shape3 (a : tensor3) : list (list nat) := widths <$> a.

(** The increment of the importance weight as the specification has it: the small
    accumulator itself over [omega_xi] plus the divisor. *)
Definition signed_increment (par : Par) (s : Stab) (n : string) : tensor2 :=
  div2 (small_omega_var s !!! n)
       (map2 (Qplus (omega_xi par)) (small_omega_var_div s !!! n)).

(** One variable with one entry, after one training step in which the
    optimizer moved it by 1 and the mean reward fell from 0 to -1: the
    small accumulator is -1 and its divisor is 1. *)
Definition one_var : list (string * tensor2) := [("network/Wf0"%string, [[1]])].

Definition stab_after_step : Stab :=
  update_small_omega Run.par one_var {[ "network/Wf0"%string := [[1]] ]} ∅
    (-1) 0 (init_stab one_var).

(** The entropy loss as the specification has it: the terms summed over the
    actions (axis 2), then the mean over the steps and batch elements. *)
Definition entropy_loss_over_actions (par : Par) (log : Q → Q) (r : Records)
    : Q :=
  - entropy_cost par * reduce_mean2 (reduce_sum_axis2 (entropy_terms par log r)).

(** A run of one step with two batch elements and three actions: the
    small run with a wider policy head.  Both elements are active and the
    policy is uniform. *)
Definition par_entropy : Par :=
  {| num_time_steps := 1;
     batch_size := 2;
     n_input := 2;
     n_pol := 3;
     n_val := 1;
     num_pred_cells := 2;
     h_init := [fill2 2 1 0; fill2 2 1 0];
     failure_penalty := -1;
     discount_rate := 9 # 10;
     entropy_cost := 1;
     val_cost := 1;
     error_cost := 1;
     spike_cost := 1;
     omega_c := 1;
     omega_xi := 1 # 100;
     training_method := "RL";
     stabilization := "pathint" |}.

Definition var_dict_entropy : VarDict :=
  {| Wf := [fill2 13 1 0; fill2 12 1 0];
     Wi := [fill2 13 1 0; fill2 12 1 0];
     Wo := [fill2 13 1 0; fill2 12 1 0];
     Wc := [fill2 13 1 0; fill2 12 1 0];
     Uf := [fill2 1 1 0; fill2 1 1 0];
     Ui := [fill2 1 1 0; fill2 1 1 0];
     Uo := [fill2 1 1 0; fill2 1 1 0];
     Uc := [fill2 1 1 0; fill2 1 1 0];
     bf := [fill2 1 1 0; fill2 1 1 0];
     bi := [fill2 1 1 0; fill2 1 1 0];
     bo := [fill2 1 1 0; fill2 1 1 0];
     bc := [fill2 1 1 0; fill2 1 1 0];
     W_pred := [fill2 1 6 0; fill2 1 6 0];
     b_pred := [fill2 1 6 0; fill2 1 6 0];
     W_pol_out := fill2 1 3 0;
     b_pol_out := fill2 1 3 0;
     W_val_out := fill2 1 1 0;
     b_val_out := fill2 1 1 0 |}.

Definition records_entropy : Records :=
  (rnn_cell_loop par_entropy var_dict_entropy Run.sigmoid Run.tanh Run.softmax
     Run.multinomial Run.make_inputs Run.agent_action).2.

(** The variables of the small run with the recurrent weight [Uf] of cell
    0 at -1. *)
Definition var_dict_negative : VarDict :=
  {| Wf := Wf Run.var_dict; Wi := Wi Run.var_dict;
     Wo := Wo Run.var_dict; Wc := Wc Run.var_dict;
     Uf := [[[-1]]; [[0]]]; Ui := Ui Run.var_dict;
     Uo := Uo Run.var_dict; Uc := Uc Run.var_dict;
     bf := bf Run.var_dict; bi := bi Run.var_dict;
     bo := bo Run.var_dict; bc := bc Run.var_dict;
     W_pred := W_pred Run.var_dict; b_pred := b_pred Run.var_dict;
     W_pol_out := W_pol_out Run.var_dict; b_pol_out := b_pol_out Run.var_dict;
     W_val_out := W_val_out Run.var_dict; b_val_out := b_val_out Run.var_dict |}.

(** The configuration of the small run with the training method [SL]. *)
Definition par_SL : Par :=
  {| num_time_steps := num_time_steps Run.par;
     batch_size := batch_size Run.par;
     n_input := n_input Run.par;
     n_pol := n_pol Run.par;
     n_val := n_val Run.par;
     num_pred_cells := num_pred_cells Run.par;
     h_init := h_init Run.par;
     failure_penalty := failure_penalty Run.par;
     discount_rate := discount_rate Run.par;
     entropy_cost := entropy_cost Run.par;
     val_cost := val_cost Run.par;
     error_cost := error_cost Run.par;
     spike_cost := spike_cost Run.par;
     omega_c := omega_c Run.par;
     omega_xi := omega_xi Run.par;
     training_method := "SL";
     stabilization := stabilization Run.par |}.

(** What a step appends one entry to. *)
Definition timeline (r : Records)
    : list tensor2 * list tensor2 * list tensor2 * list tensor2
      * list tensor2 * list tensor2 * list tensor2 :=
  (input_data r, mask_rec r, pol_out_rec r, val_out_rec r, action_rec r,
   reward_rec r, actual_reward_vector r).

(** The four prediction-error diagnostics hold no negative number. *)
Definition diagnostics_nonneg (r : Records) : Prop :=
  Forall (Forall (λ v, 0 <= v)) (total_pred_error r)
  ∧ Forall (Forall (λ v, 0 <= v)) (stim_pred_error r)
  ∧ Forall (Forall (λ v, 0 <= v)) (rew_pred_error r)
  ∧ Forall (Forall (λ v, 0 <= v)) (act_pred_error r).

Definition nonneg3 (es : tensor3) : Prop :=
  Forall (Forall (Forall (λ v, 0 <= v))) es.

(** A sequence of training steps in RL mode, as far as
    [update_small_omega] sees them: the optimizer deltas, the current and
    the previous reward of each step. *)
Definition accumulate (par : Par) (vars : list (string * tensor2))
    (steps : list (gmap string tensor2 * Q * Q)) (s : Stab) : Stab :=
  fold_left (λ s '(d, cur, prev), update_small_omega par vars d ∅ cur prev s)
            steps s.

(** Every entry of the first matrix is in absolute value at most the entry
    of the second at its position. *)
Definition dominated (S D : tensor2) : Prop :=
  Forall2 (Forall2 (λ s d, Qabs s <= d)) S D.

(** The configuration of the small run without a stabilization method. *)
Definition par_plain : Par :=
  {| num_time_steps := num_time_steps Run.par;
     batch_size := batch_size Run.par;
     n_input := n_input Run.par;
     n_pol := n_pol Run.par;
     n_val := n_val Run.par;
     num_pred_cells := num_pred_cells Run.par;
     h_init := h_init Run.par;
     failure_penalty := failure_penalty Run.par;
     discount_rate := discount_rate Run.par;
     entropy_cost := entropy_cost Run.par;
     val_cost := val_cost Run.par;
     error_cost := error_cost Run.par;
     spike_cost := spike_cost Run.par;
     omega_c := omega_c Run.par;
     omega_xi := omega_xi Run.par;
     training_method := training_method Run.par;
     stabilization := "None" |}.

(** Iterations in which both agents of the batch take the failure penalty
    at step 1 and the optimizer leaves the variable as it is. *)
Definition batch_failed (i : nat) : Batch :=
  {| seen_delta_grads := ∅;
     seen_current_reward := -1;
     delta_grads := ∅;
     grads := ∅;
     reward_list := [[[0]; [0]]; [[-1]; [-1]]; [[0]; [0]]];
     new_vars := one_var |}.

(** Every entry is between -1 and 1. *)
Definition within_one (a : tensor2) : Prop :=
  Forall (Forall (λ v, -1 <= v ∧ v <= 1)) a.

(** Piecewise-linear functions with the ranges of [tf.sigmoid] and
    [tf.tanh]. *)
Definition hard_sigmoid (x : Q) : Q := Qmax 0 (Qmin 1 ((1 # 2) + x / 4)).
Definition hard_tanh (x : Q) : Q := Qmax (-1) (Qmin 1 x).

(** * Properties *)

(** ** Shapes and broadcasting *)

Lemma blen_comm m n : blen m n = blen n m.
Proof.
  unfold blen.
  destruct (Nat.eqb_spec m 1), (Nat.eqb_spec n 1); lia.
Qed.

Lemma blen_assoc m n p : blen (blen m n) p = blen m (blen n p).
Proof.
  unfold blen.
  destruct (Nat.eqb_spec m 1), (Nat.eqb_spec n 1), (Nat.eqb_spec p 1);
    subst; simpl;
    repeat match goal with
           | |- context [(?a =? 1)%nat] => destruct (Nat.eqb_spec a 1)
           end; lia.
Qed.

Lemma bcast_singleton_l {A} (f : A → A → A) x b : bcast f [x] b = f x <$> b.
Proof. reflexivity. Qed.

Lemma bcast_singleton_r {A} (f : A → A → A) a y :
  bcast f a [y] = (λ x, f x y) <$> a.
Proof. destruct a as [|x [|x' a]]; reflexivity. Qed.

Lemma bcast_zip {A} (f : A → A → A) a b :
  length a = length b → bcast f a b = zip_with f a b.
Proof.
  destruct a as [|x [|x' a]], b as [|y [|y' b]]; simpl; try reflexivity;
    discriminate.
Qed.

Lemma length_bcast {A} (f : A → A → A) a b :
  length (bcast f a b) = blen (length a) (length b).
Proof.
  destruct a as [|x [|x' a]], b as [|y [|y' b]]; simpl;
    rewrite ?length_fmap, ?length_zip_with; simpl; try reflexivity;
    unfold blen; simpl; lia.
Qed.

Lemma zip_with_hom {A B} (F : A → A → A) (G : B → B → B) (g : A → B) a b :
  (∀ x y, g (F x y) = G (g x) (g y)) →
  g <$> zip_with F a b = zip_with G (g <$> a) (g <$> b).
Proof.
  intros Hg. revert b.
  induction a as [|x a IH]; intros [|y b]; simpl; try reflexivity.
  rewrite Hg, IH. reflexivity.
Qed.

Lemma bcast_hom {A B} (F : A → A → A) (G : B → B → B) (g : A → B) a b :
  (∀ x y, g (F x y) = G (g x) (g y)) →
  g <$> bcast F a b = bcast G (g <$> a) (g <$> b).
Proof.
  intros Hg.
  destruct a as [|x [|x' a]], b as [|y [|y' b]]; simpl;
    rewrite ?Hg; try reflexivity; do 2 f_equal;
    rewrite <- ?list_fmap_compose;
    try (apply list_fmap_ext; intros; simpl; apply Hg).
  apply zip_with_hom, Hg.
Qed.

Lemma widths_bop2 f a b :
  widths (bop2 f a b) = bcast blen (widths a) (widths b).
Proof. apply bcast_hom. intros x y. apply length_bcast. Qed.

Lemma widths_map2 f a : widths (map2 f a) = widths a.
Proof.
  unfold widths, map2. rewrite <- list_fmap_compose.
  apply list_fmap_ext. intros i x _. simpl. apply length_fmap.
Qed.

Lemma zip_with_comm {A} (g : A → A → A) a b :
  (∀ x y, g x y = g y x) → zip_with g a b = zip_with g b a.
Proof.
  intros Hg. revert b.
  induction a as [|x a IH]; intros [|y b]; simpl; try reflexivity.
  rewrite Hg, IH. reflexivity.
Qed.

Lemma zip_with_assoc {A} (g : A → A → A) a b c :
  (∀ x y z, g (g x y) z = g x (g y z)) →
  zip_with g (zip_with g a b) c = zip_with g a (zip_with g b c).
Proof.
  intros Hg. revert b c.
  induction a as [|x a IH]; intros [|y b] [|z c]; simpl; try reflexivity.
  rewrite Hg, IH. reflexivity.
Qed.

Lemma bcast_comm {A} (g : A → A → A) a b :
  (∀ x y, g x y = g y x) → bcast g a b = bcast g b a.
Proof.
  intros Hg.
  destruct a as [|x [|x' a]], b as [|y [|y' b]]; simpl;
    rewrite ?(Hg x), ?(Hg x'); try reflexivity; do 2 f_equal;
    try (apply list_fmap_ext; intros; simpl; apply Hg).
  apply zip_with_comm, Hg.
Qed.

Section ZipAssoc.
Context {A : Type} (g : A → A → A).
Hypothesis Hg : ∀ x y z, g (g x y) z = g x (g y z).

Lemma zip_with_scale_l x b c :
  zip_with g (g x <$> b) c = g x <$> zip_with g b c.
Proof.
  revert c. induction b as [|y b IH]; intros [|z c]; simpl; try reflexivity.
  rewrite Hg, IH. reflexivity.
Qed.

Lemma zip_with_scale_m a y c :
  zip_with g ((λ v, g v y) <$> a) c = zip_with g a (g y <$> c).
Proof.
  revert c. induction a as [|x a IH]; intros [|z c]; simpl; try reflexivity.
  rewrite Hg, IH. reflexivity.
Qed.

Lemma zip_with_scale_r a b z :
  (λ v, g v z) <$> zip_with g a b = zip_with g a ((λ v, g v z) <$> b).
Proof.
  revert b. induction a as [|x a IH]; intros [|y b]; simpl; try reflexivity.
  rewrite Hg, IH. reflexivity.
Qed.
End ZipAssoc.

Lemma bcast_assoc {A} (g : A → A → A) a b c :
  (∀ x y z, g (g x y) z = g x (g y z)) →
  bcast g (bcast g a b) c = bcast g a (bcast g b c).
Proof.
  intros Hg.
  destruct a as [|x [|x' a]], b as [|y [|y' b]], c as [|z [|z' c]]; simpl;
    rewrite ?Hg; try reflexivity; do 2 f_equal;
    rewrite <- ?list_fmap_compose;
    try (apply list_fmap_ext; intros; simpl; rewrite ?Hg; reflexivity).
  - apply zip_with_scale_l, Hg.
  - apply zip_with_scale_m, Hg.
  - apply zip_with_scale_r, Hg.
  - apply zip_with_assoc, Hg.
Qed.

Lemma shape2_widths a b : widths a = widths b → shape2 a = shape2 b.
Proof.
  intros Hw. unfold shape2. fold (widths a) (widths b). rewrite Hw.
  f_equal. rewrite <- (length_fmap length a), <- (length_fmap length b).
  fold (widths a) (widths b). rewrite Hw. reflexivity.
Qed.

(** ** The prediction error of a cell *)

Lemma relu_nonneg v : 0 <= relu v.
Proof. unfold relu. apply Q.le_max_l. Qed.

Lemma relu2_nonneg a : nonneg2 (relu2 a).
Proof.
  unfold nonneg2, relu2, map2.
  apply Forall_fmap, Forall_true. intros row. simpl.
  apply Forall_fmap, Forall_true. intros v. simpl. apply relu_nonneg.
Qed.

Lemma pos_neg_widths vd x h cell_num :
  widths (pos_err vd x h cell_num) = widths (neg_err vd x h cell_num).
Proof.
  unfold pos_err, neg_err, relu2, sub2, add2.
  rewrite !widths_map2, !widths_bop2.
  rewrite (bcast_comm blen (bcast blen _ _) (widths x)) by apply blen_comm.
  apply bcast_assoc, blen_assoc.
Qed.

(** C9.  Whatever the input [x], the hidden state [h] and the cell, the error
    signal that [predictive_cell] returns is the positive part followed by
    the negative part; every entry of either part is at least 0, and the
    two parts have the same shape. *)
Theorem error_signal_halves_nonneg par vd sigmoid tanh erv x y h c cell_num :
  (predictive_cell par vd sigmoid tanh erv x y h c cell_num).2.2
    = concat_cols (pos_err vd x h cell_num) (neg_err vd x h cell_num)
  ∧ nonneg2 (pos_err vd x h cell_num)
  ∧ nonneg2 (neg_err vd x h cell_num)
  ∧ shape2 (pos_err vd x h cell_num) = shape2 (neg_err vd x h cell_num).
Proof.
  split; [reflexivity|].
  split; [apply relu2_nonneg|].
  split; [apply relu2_nonneg|].
  apply shape2_widths, pos_neg_widths.
Qed.

(** ** The loop over time: what a step does to the mask and the reward *)

Section Loop.

Variable par : Par.
Variable var_dict : VarDict.
Variables sigmoid tanh : Q → Q.
Variable softmax : tensor2 → tensor2.
Variable multinomial : nat → nat → tensor1 → nat.
Variable make_inputs : nat → tensor1.
Variable agent_action : nat → tensor2 → tensor2 → tensor1.

Local Abbreviation cell_step' := (cell_step par var_dict sigmoid tanh).
Local Abbreviation time_step' :=
  (time_step par var_dict sigmoid tanh softmax multinomial make_inputs
     agent_action).
Local Abbreviation run_steps' :=
  (run_steps par var_dict sigmoid tanh softmax multinomial make_inputs
     agent_action).

Lemma cell_step_frame inputs s i : frame s (cell_step' inputs s i).
Proof.
  destruct s as [k r]. unfold cell_step.
  destruct (predictive_cell _ _ _ _ _ _ _ _ _ _) as [erv [[hi ci] err]].
  repeat split.
Qed.

Lemma cells_frame inputs l s : frame s (fold_left (cell_step' inputs) l s).
Proof.
  revert s. induction l as [|i l IH]; intros s; simpl.
  - repeat split.
  - destruct (IH (cell_step' inputs s i)) as (H1 & H2 & H3 & H4 & H5 & H6).
    destruct (cell_step_frame inputs s i) as (G1 & G2 & G3 & G4 & G5 & G6).
    unfold frame. rewrite H1, H2, H3, H4, H5, H6. repeat split; assumption.
Qed.

Lemma time_step_eqs s t :
  let m' := mul2 (mask s.1) (continue_trial (reward s.1)) in
  let s' := time_step' s t in
  mask s'.1 = m'
  ∧ reward s'.1 =
      mul2 (mul2 (feedback par agent_action t (action s'.1) m') m')
           (reshape2 (batch_size par) 1 (time_mask par !!! t))
  ∧ mask_rec s'.2 = mask_rec s.2 ++ [m']
  ∧ reward_rec s'.2 = reward_rec s.2 ++ [reward s'.1].
Proof.
  destruct s as [k0 r0]. unfold time_step.
  match goal with
  | |- context [fold_left (cell_step' ?i) ?l ?s0] =>
      generalize (cells_frame i l s0);
      destruct (fold_left (cell_step' i) l s0) as [k r]
  end.
  intros (H1 & H2 & H3 & H4 & H5 & H6). simpl in *.
  rewrite H1, H3, H4, H5. repeat split.
Qed.

Lemma run_steps_S n : run_steps' (S n) = time_step' (run_steps' n) n.
Proof. unfold run_steps. rewrite seq_S, fold_left_app. reflexivity. Qed.

End Loop.

(** ** Column tensors

    The mask and the reward have shape [B, 1]: one entry per batch
    element. *)

Lemma length_colT v : length (colT v) = length v.
Proof. apply length_fmap. Qed.

Lemma entry2_colT v b : entry2 (colT v) b 0 = v !! b.
Proof.
  unfold entry2, colT. rewrite list_lookup_fmap.
  destruct (v !! b); reflexivity.
Qed.

Lemma bop2_colT f u v :
  length u = length v → bop2 f (colT u) (colT v) = colT (zip_with f u v).
Proof.
  intros Hl. unfold bop2. rewrite bcast_zip by (rewrite !length_colT; exact Hl).
  clear Hl. revert v.
  induction u as [|x u IH]; intros [|y v]; simpl; try reflexivity.
  f_equal. apply IH.
Qed.

Lemma bop2_scalar f c m : bop2 f [[c]] m = map2 (f c) m.
Proof. reflexivity. Qed.

Lemma map2_colT f v : map2 f (colT v) = colT (f <$> v).
Proof.
  unfold map2, colT. rewrite <- !list_fmap_compose. reflexivity.
Qed.

Lemma continue_trial_colT v : continue_trial (colT v) = colT (is_zero <$> v).
Proof. apply map2_colT. Qed.

Lemma fill2_colT n v : fill2 n 1 v = colT (replicate n v).
Proof. unfold fill2, colT. rewrite fmap_replicate. reflexivity. Qed.

Lemma reshape2_colT v : reshape2 (length v) 1 v = colT v.
Proof.
  unfold reshape2, colT.
  induction v as [|x v IH]; [reflexivity|].
  simpl length. rewrite <- cons_seq, <- fmap_S_seq. simpl.
  rewrite take_0. f_equal.
  change (list_fmap Q (list Q) (λ x0, [x0]) v) with ((λ x0 : Q, [x0]) <$> v).
  rewrite <- IH.
  change (list_fmap nat (list Q) ?f (S <$> ?l)) with (f <$> (S <$> l)).
  rewrite <- list_fmap_compose.
  apply list_fmap_ext. intros i r _. reflexivity.
Qed.

Lemma is_zero_bit v : is_zero v = 0 ∨ is_zero v = 1.
Proof. unfold is_zero. destruct (Qeq_bool v 0); auto. Qed.

Lemma bit_mul_is_zero m v : bit m → bit (m * is_zero v).
Proof.
  unfold bit. intros [Hm|Hm]; destruct (is_zero_bit v) as [Hz|Hz];
    rewrite Hm, Hz; [left|left|left|right]; ring.
Qed.

Lemma mul_is_zero_le m v : bit m → m * is_zero v <= m.
Proof.
  unfold bit. intros [Hm|Hm]; destruct (is_zero_bit v) as [Hz|Hz];
    rewrite Hm, Hz; lra.
Qed.

Lemma mask_update_bits vm vr :
  Forall bit vm → Forall bit (zip_with Qmult vm (is_zero <$> vr)).
Proof.
  intros Hb. revert vr.
  induction Hb as [|m vm Hm _ IH]; intros [|v vr]; simpl; constructor.
  - apply bit_mul_is_zero, Hm.
  - apply IH.
Qed.

(** ** The trajectory of the mask and the reward *)

Section Trajectory.

Variable par : Par.
Variable var_dict : VarDict.
Variables sigmoid tanh : Q → Q.
Variable softmax : tensor2 → tensor2.
Variable multinomial : nat → nat → tensor1 → nat.
Variable make_inputs : nat → tensor1.
Variable agent_action : nat → tensor2 → tensor2 → tensor1.

Local Abbreviation time_step' :=
  (time_step par var_dict sigmoid tanh softmax multinomial make_inputs
     agent_action).
Local Abbreviation run_steps' :=
  (run_steps par var_dict sigmoid tanh softmax multinomial make_inputs
     agent_action).

(** The reward is a scalar per batch element, and the environment answers
    with one reward per batch element. *)
Hypothesis Hval : n_val par = 1%nat.
Hypothesis Henv : ∀ t a m, length (agent_action t a m) = batch_size par.

Lemma good_init : good par (run_steps' 0).
Proof.
  exists (replicate (batch_size par) 1), (replicate (batch_size par) 0).
  unfold run_steps. simpl. rewrite Hval, !fill2_colT, !length_replicate.
  repeat split. apply Forall_replicate. right. reflexivity.
Qed.

Lemma step_columns s t :
  (t < num_time_steps par)%nat → good par s →
  ∃ vm vr vm' vr',
    mask s.1 = colT vm ∧ reward s.1 = colT vr
    ∧ mask (time_step' s t).1 = colT vm'
    ∧ reward (time_step' s t).1 = colT vr'
    ∧ length vm = batch_size par ∧ length vm' = batch_size par
    ∧ length vr' = batch_size par
    ∧ Forall bit vm ∧ Forall bit vm'
    ∧ vm' = zip_with Qmult vm (is_zero <$> vr)
    ∧ ((num_time_steps par - 2 <= t)%nat →
       vr' = zip_with Qmult (Qmult (failure_penalty par) <$> vm')
                      (replicate (batch_size par) 1)).
Proof.
  intros Ht (vm & vr & Hm & Hr & Lm & Lr & Bm).
  destruct (time_step_eqs par var_dict sigmoid tanh softmax multinomial
              make_inputs agent_action s t) as (E1 & E2 & _).
  cbv zeta in E1, E2. rewrite <- E1 in E2.
  rewrite Hm, Hr, continue_trial_colT in E1. unfold mul2 in E1.
  rewrite bop2_colT in E1 by (rewrite length_fmap; lia).
  set (vm' := zip_with Qmult vm (is_zero <$> vr)) in *.
  assert (Lm' : length vm' = batch_size par).
  { unfold vm'. rewrite length_zip_with, length_fmap. lia. }
  assert (Htm : reshape2 (batch_size par) 1 (time_mask par !!! t)
                = colT (replicate (batch_size par) 1)).
  { unfold time_mask. rewrite lookup_total_replicate_2 by exact Ht.
    rewrite <- (length_replicate (batch_size par) 1) at 1.
    apply reshape2_colT. }
  rewrite Htm, E1 in E2. unfold feedback in E2.
  destruct (Nat.ltb_spec t (num_time_steps par - 2)) as [Hlt|Hge].
  - rewrite <- (Henv t (action (time_step' s t).1) (colT vm')) in E2 at 1.
    rewrite reshape2_colT in E2. unfold mul2 in E2.
    rewrite !bop2_colT in E2
      by (rewrite ?length_zip_with, ?length_replicate, ?Henv; lia).
    exists vm, vr, vm'. eexists.
    split; [exact Hm|]. split; [exact Hr|].
    split; [exact E1|]. split; [exact E2|].
    repeat split; try assumption.
    + rewrite !length_zip_with, length_replicate, Henv. lia.
    + apply mask_update_bits, Bm.
    + intros. lia.
  - unfold mul2 in E2. rewrite bop2_scalar, map2_colT in E2.
    rewrite bop2_colT in E2 by (rewrite length_fmap, length_replicate; lia).
    exists vm, vr, vm'. eexists.
    split; [exact Hm|]. split; [exact Hr|].
    split; [exact E1|]. split; [exact E2|].
    repeat split; try assumption.
    + rewrite length_zip_with, length_fmap, length_replicate. lia.
    + apply mask_update_bits, Bm.
Qed.

Lemma good_run n : (n <= num_time_steps par)%nat → good par (run_steps' n).
Proof.
  induction n as [|n IH]; intros Hn; [apply good_init|].
  rewrite run_steps_S.
  destruct (step_columns (run_steps' n) n) as
    (vm & vr & vm' & vr' & _ & _ & E1 & E2 & _ & L1 & L2 & _ & B1 & _);
    [lia | apply IH; lia |].
  exists vm', vr'. repeat split; assumption.
Qed.

Lemma recorded_length n :
  length (mask_rec (run_steps' n).2) = n
  ∧ length (reward_rec (run_steps' n).2) = n.
Proof.
  induction n as [|n [IH1 IH2]]; [split; reflexivity|].
  rewrite run_steps_S.
  destruct (time_step_eqs par var_dict sigmoid tanh softmax multinomial
              make_inputs agent_action (run_steps' n) n) as (_ & _ & E3 & E4).
  cbv zeta in E3, E4. rewrite E3, E4, !length_app, IH1, IH2. simpl. lia.
Qed.

Lemma recorded n t :
  (t < n)%nat →
  mask_rec (run_steps' n).2 !! t = Some (mask (run_steps' (S t)).1)
  ∧ reward_rec (run_steps' n).2 !! t = Some (reward (run_steps' (S t)).1).
Proof.
  induction n as [|n IH]; intros Ht; [lia|].
  destruct (recorded_length n) as [L1 L2].
  rewrite (run_steps_S _ _ _ _ _ _ _ _ n).
  destruct (time_step_eqs par var_dict sigmoid tanh softmax multinomial
              make_inputs agent_action (run_steps' n) n) as (E1 & _ & E3 & E4).
  cbv zeta in E1, E3, E4. rewrite E3, E4.
  destruct (decide (t = n)) as [->|Hne].
  - rewrite !list_lookup_middle by (symmetry; assumption).
    rewrite (run_steps_S _ _ _ _ _ _ _ _ n), E1. split; reflexivity.
  - rewrite !lookup_app_l by lia. apply IH. lia.
Qed.

(** The recorded mask of step [t] is a column of [B] zeros and ones; the
    mask of the next step is its product with the indicator that the
    reward of step [t] is zero. *)
Lemma mask_rows t :
  (t < num_time_steps par)%nat →
  ∃ vm, mask (run_steps' (S t)).1 = colT vm
        ∧ length vm = batch_size par ∧ Forall bit vm.
Proof.
  intros Ht. destruct (good_run (S t)) as (vm & vr & Hm & _ & Lm & _ & Bm);
    [lia|]. exists vm. repeat split; assumption.
Qed.

Lemma mask_at_recorded n t b vm :
  (t < n)%nat → mask (run_steps' (S t)).1 = colT vm →
  mask_at (run_steps' n).2 t b = vm !! b.
Proof.
  intros Ht Hm. unfold mask_at, entry3.
  destruct (recorded n t Ht) as [-> _]. simpl. rewrite Hm. apply entry2_colT.
Qed.

Lemma reward_at_recorded n t b vr :
  (t < n)%nat → reward (run_steps' (S t)).1 = colT vr →
  reward_at (run_steps' n).2 t b = vr !! b.
Proof.
  intros Ht Hr. unfold reward_at, entry3.
  destruct (recorded n t Ht) as [_ ->]. simpl. rewrite Hr. apply entry2_colT.
Qed.

Local Abbreviation trajectory :=
  (rnn_cell_loop par var_dict sigmoid tanh softmax multinomial make_inputs
     agent_action).2.

Lemma mask_next t b :
  (S t < num_time_steps par)%nat → (b < batch_size par)%nat →
  ∃ q q', mask_at trajectory t b = Some q
          ∧ mask_at trajectory (S t) b = Some q'
          ∧ bit q ∧ bit q' ∧ q' <= q.
Proof.
  intros Ht Hb. unfold rnn_cell_loop.
  destruct (step_columns (run_steps' (S t)) (S t)) as
    (vm & vr & vm' & vr' & Hm & _ & Hm' & _ & Lm & Lm' & _ & Bm & Bm' & E & _);
    [lia | apply good_run; lia |].
  rewrite <- run_steps_S in Hm'.
  rewrite (mask_at_recorded _ t b vm), (mask_at_recorded _ (S t) b vm')
    by (try lia; assumption).
  destruct (lookup_lt_is_Some_2 vm' b) as [q' Hq']; [lia|].
  pose proof Hq' as Hz. rewrite E in Hz.
  apply lookup_zip_with_Some in Hz as (q & z & -> & Hq & Hz).
  apply list_lookup_fmap_Some in Hz as (v & -> & _).
  exists q, (q * is_zero v).
  assert (Hbq : bit q) by exact (Forall_lookup_1 _ _ _ _ Bm Hq).
  repeat split; try assumption.
  - apply bit_mul_is_zero, Hbq.
  - apply mul_is_zero_le, Hbq.
Qed.

(** C8.  In every run (for every network, sampler and environment), the
    recorded mask of every batch element is 0 or 1 at every step and at a
    step [t + 1] it is at most what it was at step [t]; once it is 0 it is 0
    at every later step. *)
Theorem mask_non_increasing :
  (∀ t b, (S t < num_time_steps par)%nat → (b < batch_size par)%nat →
     ∃ q q', mask_at trajectory t b = Some q
             ∧ mask_at trajectory (S t) b = Some q'
             ∧ bit q ∧ bit q' ∧ q' <= q)
  ∧ (∀ t t' b q,
       (t <= t')%nat → (t' < num_time_steps par)%nat →
       (b < batch_size par)%nat →
       mask_at trajectory t b = Some q → q == 0 →
       ∃ q', mask_at trajectory t' b = Some q' ∧ q' == 0).
Proof.
  split; [exact mask_next|].
  intros t t' b q Hle. induction Hle as [|t' Hle IH]; intros Ht' Hb Hq Hq0.
  - exists q. split; assumption.
  - destruct IH as (q1 & Hq1 & Hz1); try assumption; [lia|].
    destruct (mask_next t' b Ht' Hb) as (p & p' & Hp & Hp' & _ & Bp' & Hpp).
    rewrite Hq1 in Hp. injection Hp as <-.
    exists p'. split; [assumption|].
    destruct Bp' as [H0|H1]; [assumption|]. rewrite H1, Hz1 in Hpp. lra.
Qed.

(** C5, amended.  In each of the last two steps the recorded reward of a
    batch element is the failure penalty times the mask recorded for that
    step, whatever the environment: the failure penalty where that mask is
    1, and 0 where it is 0. *)
Theorem last_steps_reward t b :
  (num_time_steps par - 2 <= t)%nat → (t < num_time_steps par)%nat →
  (b < batch_size par)%nat →
  ∃ m q, mask_at trajectory t b = Some m
         ∧ reward_at trajectory t b = Some q
         ∧ bit m
         ∧ (m == 1 → q == failure_penalty par)
         ∧ (m == 0 → q == 0).
Proof.
  intros Hlast Ht Hb. unfold rnn_cell_loop.
  destruct (step_columns (run_steps' t) t) as
    (vm & vr & vm' & vr' & _ & _ & Hm' & Hr' & _ & Lm' & Lr' & _ & Bm' & _ & E);
    [lia | apply good_run; lia |].
  specialize (E Hlast). rewrite <- run_steps_S in Hm', Hr'.
  rewrite (mask_at_recorded _ t b vm'), (reward_at_recorded _ t b vr')
    by (try lia; assumption).
  destruct (lookup_lt_is_Some_2 vr' b) as [q Hq]; [lia|].
  pose proof Hq as Hz. rewrite E in Hz.
  apply lookup_zip_with_Some in Hz as (x & one & -> & Hx & Hone).
  apply list_lookup_fmap_Some in Hx as (m & -> & Hm).
  apply lookup_replicate in Hone as [-> _].
  exists m, (failure_penalty par * m * 1).
  assert (Hbm : bit m) by exact (Forall_lookup_1 _ _ _ _ Bm' Hm).
  repeat split; try assumption.
  - intros ->. ring.
  - intros ->. ring.
Qed.

End Trajectory.

(** The mask and the reward the small run records. *)
Example run_mask : mask_rec Run.loop.2 = [[[1]; [1]]; [[1]; [1]]; [[0]; [0]]].
Proof. vm_compute. reflexivity. Qed.

Example run_reward :
  reward_rec Run.loop.2 = [[[0]; [0]]; [[-1]; [-1]]; [[0]; [0]]].
Proof. vm_compute. reflexivity. Qed.

(** The mask of the small run between its steps 1 and 2. *)
Lemma mask_non_increasing_witness :
  n_val Run.par = 1%nat
  ∧ (∀ t a m, length (Run.agent_action t a m) = batch_size Run.par)
  ∧ ∃ q q', mask_at Run.loop.2 1 0 = Some q
            ∧ mask_at Run.loop.2 2 0 = Some q' ∧ q' <= q.
Proof.
  split; [reflexivity|]. split; [reflexivity|].
  destruct (mask_non_increasing Run.par Run.var_dict Run.sigmoid Run.tanh
              Run.softmax Run.multinomial Run.make_inputs Run.agent_action
              eq_refl (λ _ _ _, eq_refl)) as [Hstep _].
  destruct (Hstep 1%nat 0%nat) as (q & q' & Hq & Hq' & _ & _ & Hle);
    [simpl; lia | simpl; lia |].
  exists q, q'. repeat split; assumption.
Defined.

(** The reward of the small run at step 1, the first of its last two. *)
Lemma last_steps_reward_witness :
  n_val Run.par = 1%nat
  ∧ (∀ t a m, length (Run.agent_action t a m) = batch_size Run.par)
  ∧ ∃ m q, mask_at Run.loop.2 1 0 = Some m
           ∧ reward_at Run.loop.2 1 0 = Some q
           ∧ (m == 1 → q == failure_penalty Run.par).
Proof.
  split; [reflexivity|]. split; [reflexivity|].
  destruct (last_steps_reward Run.par Run.var_dict Run.sigmoid Run.tanh
              Run.softmax Run.multinomial Run.make_inputs Run.agent_action
              eq_refl (λ _ _ _, eq_refl) 1%nat 0%nat)
    as (m & q & Hm & Hq & _ & H1 & _); [simpl; lia | simpl; lia | simpl; lia |].
  exists m, q. repeat split; assumption.
Defined.

(** C5, as claimed, fails in the last step of the small run.  Batch element
    0 enters the last step (step 2) with mask 1, and its recorded reward at
    that step is 0, not the failure penalty -1: the reward of step 1 was the
    penalty, so that the mask is brought to 0 before the reward of step 2 is
    formed. *)
Lemma last_step_reward_not_penalty :
  entry2 (mask (Run.steps 2).1) 0 0 = Some 1
  ∧ reward_at Run.loop.2 2 0 = Some 0
  ∧ ¬ 0 == failure_penalty Run.par.
Proof.
  split; [vm_compute; reflexivity|].
  split; [vm_compute; reflexivity|].
  intros H. discriminate H.
Qed.

(** ** The bottom-up input of a cell *)

Lemma teq2_refl a : teq2 a a.
Proof.
  unfold teq2. apply Forall2_same_length_lookup_2; [reflexivity|].
  intros i x y Hx Hy. rewrite Hx in Hy. injection Hy as <-.
  apply Forall2_same_length_lookup_2; [reflexivity|].
  intros j u v Hu Hv. rewrite Hu in Hv. injection Hv as <-. reflexivity.
Qed.

Lemma teq2_map2 f g a : (∀ v, f v == g v) → teq2 (map2 f a) (map2 g a).
Proof.
  intros Hfg. unfold teq2, map2.
  apply Forall2_fmap, Forall_Forall2_diag, Forall_true. intros row.
  apply Forall2_fmap, Forall_Forall2_diag, Forall_true. intros v. apply Hfg.
Qed.

Lemma teq2_concat_cols a a' b b' :
  teq2 a a' → teq2 b b' → teq2 (concat_cols a b) (concat_cols a' b').
Proof.
  unfold teq2, concat_cols. intros Ha. revert b b'.
  induction Ha as [|x x' a a' Hx _ IH]; intros b b' Hb; simpl.
  - constructor.
  - destruct Hb as [|y y' b b' Hy Hb]; constructor.
    + apply Forall2_app; assumption.
    + apply IH, Hb.
Qed.

(** C3, amended.  The reward and the action enter the input of cell [i]
    multiplied by the cell index [i]: cell 0 gets the observation followed
    by zeros in the reward and action positions, cell 1 gets the forwarded
    error followed by the reward and the action themselves, and a cell
    [i > 0] gets the forwarded error followed by [i] times the reward and
    [i] times the action. *)
Theorem cell_input_scaled_by_index inputs error_signal reward action :
  teq2 (cell_input 0 inputs error_signal reward action)
       (concat_last [inputs; zeros_like2 reward; zeros_like2 action])
  ∧ teq2 (cell_input 1 inputs error_signal reward action)
         (concat_last [error_signal; reward; action])
  ∧ ∀ i,
      cell_input (S i) inputs error_signal reward action
      = concat_last [error_signal;
                     map2 (λ v, v * inject_Z (Z.of_nat (S i))) reward;
                     map2 (λ v, v * inject_Z (Z.of_nat (S i))) action].
Proof.
  split; [|split].
  - unfold cell_input, mulc, zeros_like2. simpl.
    apply teq2_concat_cols; [apply teq2_refl|].
    apply teq2_concat_cols; apply teq2_map2; intros v; ring.
  - unfold cell_input, mulc. simpl.
    apply teq2_concat_cols; [apply teq2_refl|].
    apply teq2_concat_cols.
    + rewrite <- (list_fmap_id reward) at 2.
      apply Forall2_fmap, Forall_Forall2_diag, Forall_true. intros row.
      rewrite <- (list_fmap_id row) at 2.
      apply Forall2_fmap, Forall_Forall2_diag, Forall_true. intros v.
      simpl. ring.
    + rewrite <- (list_fmap_id action) at 2.
      apply Forall2_fmap, Forall_Forall2_diag, Forall_true. intros row.
      rewrite <- (list_fmap_id row) at 2.
      apply Forall2_fmap, Forall_Forall2_diag, Forall_true. intros v.
      simpl. ring.
  - intros i. reflexivity.
Qed.

(** C3, as claimed, fails for cell 0 at step 1 of the small run: the action
    drawn at step 0 is [1, 0], and cell 0 receives zeros in its place. *)
Lemma cell_zero_input_without_action :
  let k := (Run.steps 1).1 in
  let inputs := reshape2 2 2 (Run.make_inputs 1) in
  cell_input 0 inputs (error_signal k) (reward k) (action k)
    = [[3; 4; 0; 0; 0]; [3; 4; 0; 0; 0]]
  ∧ cell_input_unscaled 0 inputs (error_signal k) (reward k) (action k)
    = [[3; 4; 0; 1; 0]; [3; 4; 0; 1; 0]]
  ∧ ¬ teq2 (cell_input 0 inputs (error_signal k) (reward k) (action k))
           (cell_input_unscaled 0 inputs (error_signal k) (reward k)
              (action k)).
Proof.
  split; [vm_compute; reflexivity|].
  split; [vm_compute; reflexivity|].
  vm_compute. intros H.
  inversion H as [|? ? ? ? Hrow _]; subst.
  do 3 (inversion Hrow as [|? ? ? ? _ Hrow']; subst; clear Hrow;
        rename Hrow' into Hrow).
  inversion Hrow as [|? ? ? ? Hv _]; subst. discriminate Hv.
Qed.

(** ** The error passed to the next cell *)

Lemma evens_lookup {A} (l : list A) k : evens l !! k = l !! (2 * k)%nat.
Proof.
  revert l. induction k as [|k IH]; intros [|x [|y l]]; try reflexivity.
  simpl evens. replace (2 * S k)%nat with (S (S (2 * k))) by lia.
  simpl. apply IH.
Qed.

Lemma odds_lookup {A} (l : list A) k : odds l !! k = l !! (2 * k + 1)%nat.
Proof.
  unfold odds. rewrite evens_lookup. destruct l as [|x l]; cbn [tail].
  - rewrite !lookup_nil. reflexivity.
  - replace (2 * k + 1)%nat with (S (2 * k)) by lia. reflexivity.
Qed.

Lemma evens_odds_length {A} (l : list A) n :
  length l = (2 * n)%nat → length (evens l) = n ∧ length (odds l) = n.
Proof.
  revert l. induction n as [|n IH]; intros [|x [|y l]] Hl; simpl in Hl;
    try lia; [split; reflexivity|].
  destruct (IH l) as [He Ho]; [lia|].
  unfold odds in *. simpl. destruct l as [|z l]; simpl in *; lia.
Qed.

(** The two halves recovered from the stacked tensor [es]. *)
Lemma stack_first p q :
  (λ pr, nth 0 pr 0) <$> zip_with (λ x y : Q, [x; y]) p q = take (length q) p.
Proof.
  revert q. induction p as [|x p IH]; intros [|y q]; simpl; try reflexivity.
  rewrite IH. reflexivity.
Qed.

Lemma stack_second p q :
  (λ pr, nth 1 pr 0) <$> zip_with (λ x y : Q, [x; y]) p q = take (length p) q.
Proof.
  revert q. induction p as [|x p IH]; intros [|y q]; simpl; try reflexivity.
  rewrite IH. reflexivity.
Qed.

Section Forward.

Variable par : Par.

Lemma kept_length row :
  length row = (2 * width par)%nat →
  length (kept par row) = (2 * n_input par)%nat.
Proof.
  intros Hl. unfold kept. rewrite length_app, !length_take, length_drop.
  unfold width in *. lia.
Qed.

Lemma forward_row row :
  length row = (2 * width par)%nat →
  let es := zip_with (λ x y : Q, [x; y]) (take (width par) row) (drop (width par) row) in
  let e := ((λ pr, nth 0 pr 0) <$> take (n_input par - 0) (drop 0 es))
           ++ ((λ pr, nth 1 pr 0) <$> take (n_input par - 0) (drop 0 es)) in
  bcast Qmax (evens e) (odds e) = pairmax (kept par row).
Proof.
  intros Hl es e.
  assert (He : e = kept par row).
  { unfold e, es, kept. rewrite Nat.sub_0_r, drop_0, !fmap_take.
    rewrite stack_first, stack_second, length_drop, length_take.
    rewrite !take_take. unfold width in *.
    f_equal; f_equal; lia. }
  rewrite He.
  destruct (evens_odds_length (kept par row) (n_input par) (kept_length row Hl))
    as [L1 L2].
  apply bcast_zip. lia.
Qed.

Lemma forward_error_rows err :
  Forall (λ row, length row = (2 * width par)%nat) err →
  forward_error par (split_error par err)
  = (λ row, pairmax (kept par row)) <$> err.
Proof.
  intros Hrows.
  unfold forward_error, split_error, maximum2, bop2, cols_even, cols_odd,
    concat_last, concat_cols, slice_ind, stack_last, cols_to, cols_from.
  rewrite bcast_zip by (rewrite !length_fmap; reflexivity).
  rewrite !zip_with_fmap_l, !zip_with_fmap_r, !zip_with_diag.
  rewrite <- !list_fmap_compose.
  apply Forall_fmap_ext. eapply Forall_impl; [exact Hrows|].
  intros row Hl. simpl. apply (forward_row row Hl).
Qed.


End Forward.



(** ** The bootstrap target *)

Lemma bop2_same f a b :
  widths a = widths b → bop2 f a b = zip_with (zip_with f) a b.
Proof.
  intros Hw. unfold bop2.
  rewrite bcast_zip
    by (rewrite <- (length_fmap length a), <- (length_fmap length b);
        exact (f_equal length Hw)).
  revert b Hw. induction a as [|x a IH]; intros [|y b] Hw; simpl;
    try reflexivity.
  injection Hw as Hxy Hw. f_equal; [apply bcast_zip, Hxy | apply IH, Hw].
Qed.

Lemma bop3_same f a b :
  shape3 a = shape3 b → bop3 f a b = zip_with (zip_with (zip_with f)) a b.
Proof.
  intros Hs. unfold bop3.
  rewrite bcast_zip
    by (rewrite <- (length_fmap widths a), <- (length_fmap widths b);
        exact (f_equal length Hs)).
  revert b Hs. induction a as [|x a IH]; intros [|y b] Hs; simpl;
    try reflexivity.
  injection Hs as Hxy Hs. f_equal; [apply bop2_same, Hxy | apply IH, Hs].
Qed.

Lemma shape3_bop3 f a b : shape3 a = shape3 b → shape3 (bop3 f a b) = shape3 a.
Proof.
  intros Hs. unfold shape3, bop3.
  rewrite (bcast_hom (bop2 f) (bcast blen) widths) by apply widths_bop2.
  fold (shape3 a) (shape3 b). rewrite <- Hs.
  rewrite bcast_zip by reflexivity. rewrite zip_with_diag.
  rewrite <- (list_fmap_id (shape3 a)) at 2.
  apply list_fmap_ext. intros i w _. simpl.
  rewrite bcast_zip by reflexivity. rewrite zip_with_diag.
  rewrite <- (list_fmap_id w) at 2.
  apply list_fmap_ext. intros j n _. simpl.
  unfold blen. destruct (Nat.eqb_spec n 1); lia.
Qed.

Lemma shape3_map3 f a : shape3 (map3 f a) = shape3 a.
Proof.
  unfold shape3, map3. rewrite <- list_fmap_compose.
  apply list_fmap_ext. intros i m _. simpl. apply widths_map2.
Qed.

Lemma entry3_map3 f a t b j :
  entry3 (map3 f a) t b j = f <$> entry3 a t b j.
Proof.
  unfold entry3, entry2, map3, map2. rewrite list_lookup_fmap.
  destruct (a !! t) as [m|]; [simpl|reflexivity].
  rewrite list_lookup_fmap. destruct (m !! b) as [row|]; [simpl|reflexivity].
  apply list_lookup_fmap.
Qed.

Lemma entry3_zip f a a' t b j x y :
  entry3 a t b j = Some x → entry3 a' t b j = Some y →
  entry3 (zip_with (zip_with (zip_with f)) a a') t b j = Some (f x y).
Proof.
  unfold entry3, entry2. intros Ha Ha'. rewrite lookup_zip_with.
  destruct (a !! t) as [m|]; [simpl in *|discriminate].
  destruct (a' !! t) as [m'|]; [simpl in *|discriminate].
  rewrite lookup_zip_with.
  destruct (m !! b) as [row|]; [simpl in *|discriminate].
  destruct (m' !! b) as [row'|]; [simpl in *|discriminate].
  rewrite lookup_zip_with, Ha, Ha'. reflexivity.
Qed.

(** C7.  Where the recorded reward of a step is not zero, the bootstrap
    target [pred_val] of that step is the reward: whatever the value
    estimate [vnext] of the next step and whatever the discount rate, they
    enter with the factor [1 - 1]. *)
Theorem pred_val_terminal par r t b j rw vnext :
  shape3 (reward_rec r) = shape3 (drop 1 (val_out par r)) →
  entry3 (reward_rec r) t b j = Some rw →
  entry3 (drop 1 (val_out par r)) t b j = Some vnext →
  ¬ rw == 0 →
  entry3 (terminal_state r) t b j = Some 1
  ∧ ∃ p, entry3 (pred_val par r) t b j = Some p ∧ p == rw.
Proof.
  intros Hs Hr Hv Hnz.
  assert (Hb : Qeq_bool rw 0 = false).
  { destruct (Qeq_bool rw 0) eqn:E; [|reflexivity].
    apply Qeq_bool_iff in E. contradiction. }
  assert (Ht : entry3 (terminal_state r) t b j = Some 1).
  { unfold terminal_state. rewrite entry3_map3, Hr. simpl. rewrite Hb.
    reflexivity. }
  split; [exact Ht|].
  exists (rw + discount_rate par * vnext * (1 - 1)). split; [|ring].
  unfold pred_val, add3, mul3, scale3.
  assert (Hx : shape3 (map3 (Qmult (discount_rate par)) (drop 1 (val_out par r)))
               = shape3 (map3 (λ v, 1 - v) (terminal_state r))).
  { unfold terminal_state. rewrite !shape3_map3. symmetry. exact Hs. }
  assert (Hy : shape3 (reward_rec r)
               = shape3 (bop3 Qmult
                           (map3 (Qmult (discount_rate par))
                                 (drop 1 (val_out par r)))
                           (map3 (λ v, 1 - v) (terminal_state r)))).
  { rewrite shape3_bop3 by exact Hx. rewrite shape3_map3. exact Hs. }
  rewrite (bop3_same Qplus) by exact Hy.
  rewrite (bop3_same Qmult) by exact Hx.
  apply entry3_zip; [exact Hr|].
  apply entry3_zip.
  - rewrite entry3_map3, Hv. reflexivity.
  - rewrite entry3_map3, Ht. reflexivity.
Qed.

(** The bootstrap target at step 1 of the small run, where the reward is
    the failure penalty. *)
Lemma pred_val_terminal_witness :
  shape3 (reward_rec Run.loop.2) = shape3 (drop 1 (val_out Run.par Run.loop.2))
  ∧ entry3 (reward_rec Run.loop.2) 1 0 0 = Some (-1)
  ∧ ∃ p, entry3 (pred_val Run.par Run.loop.2) 1 0 0 = Some p ∧ p == -1.
Proof.
  split; [vm_compute; reflexivity|].
  split; [vm_compute; reflexivity|].
  eapply pred_val_terminal.
  - vm_compute. reflexivity.
  - vm_compute. reflexivity.
  - vm_compute. reflexivity.
  - intros H. discriminate H.
Defined.

(** ** Path-integral consolidation *)

(** A group of assignments, one per variable, each writing its own key. *)
Section KeyedFold.

Variable upd : string → gmap string tensor2 → gmap string tensor2.
Variable g : string → tensor2 → tensor2.
Hypothesis upd_eq : ∀ n m, upd n m !!! n = g n (m !!! n).
Hypothesis upd_ne : ∀ n n' m, n ≠ n' → upd n m !!! n' = m !!! n'.

Lemma keyed_fold_other (vars : list (string * tensor2)) m n :
  n ∉ vars.*1 → fold_left (λ m '(n', _), upd n' m) vars m !!! n = m !!! n.
Proof.
  revert m. induction vars as [|[n0 v0] vars IH]; intros m Hn; simpl;
    [reflexivity|].
  simpl in Hn. apply not_elem_of_cons in Hn as [Hne Hn].
  rewrite IH by exact Hn. apply upd_ne. congruence.
Qed.

Lemma keyed_fold_lookup (vars : list (string * tensor2)) m n :
  NoDup vars.*1 → n ∈ vars.*1 →
  fold_left (λ m '(n', _), upd n' m) vars m !!! n = g n (m !!! n).
Proof.
  revert m. induction vars as [|[n0 v0] vars IH]; intros m Hnd Hin; simpl.
  - inversion Hin.
  - simpl in Hnd, Hin. apply NoDup_cons in Hnd as [Hfresh Hnd].
    destruct (decide (n = n0)) as [->|Hne].
    + rewrite keyed_fold_other by exact Hfresh. apply upd_eq.
    + apply elem_of_cons in Hin as [Heq|Hin]; [contradiction|].
      rewrite IH by assumption. f_equal. apply upd_ne. congruence.
Qed.

End KeyedFold.

Lemma entry2_map2 f a r j : entry2 (map2 f a) r j = f <$> entry2 a r j.
Proof.
  unfold entry2, map2. rewrite list_lookup_fmap.
  destruct (a !! r) as [row|]; [simpl|reflexivity]. apply list_lookup_fmap.
Qed.

Lemma entry2_zip f a a' r j x y :
  entry2 a r j = Some x → entry2 a' r j = Some y →
  entry2 (zip_with (zip_with f) a a') r j = Some (f x y).
Proof.
  unfold entry2. intros Ha Ha'. rewrite lookup_zip_with.
  destruct (a !! r) as [row|]; [simpl in *|discriminate].
  destruct (a' !! r) as [row'|]; [simpl in *|discriminate].
  rewrite lookup_zip_with, Ha, Ha'. reflexivity.
Qed.

Lemma widths_zip f a b :
  widths a = widths b → widths (zip_with (zip_with f) a b) = widths a.
Proof.
  revert b. induction a as [|x a IH]; intros [|y b] Hw; simpl in *;
    try reflexivity; try discriminate.
  injection Hw as Hxy Hw. f_equal; [|apply IH, Hw].
  rewrite length_zip_with. lia.
Qed.

Section PathintProps.

Variable par : Par.
Variable vars : list (string * tensor2).
Hypothesis Hrl : training_method par = "RL"%string.
Hypothesis Hnames : NoDup vars.*1.

Lemma update_big_omega_lookup s n :
  n ∈ vars.*1 →
  big_omega_var (update_big_omega par vars s) !!! n
  = add2 (big_omega_var s !!! n)
         (div2 (abs2 (small_omega_var s !!! n))
               (map2 (Qplus (omega_xi par)) (small_omega_var_div s !!! n))).
Proof.
  intros Hin. unfold update_big_omega, big_omega_increment. simpl.
  destruct (decide (training_method par = "RL"%string)); [|contradiction].
  apply (keyed_fold_lookup
           (λ n big,
              <[n := add2 (big !!! n)
                       (div2 (abs2 (small_omega_var s !!! n))
                             (map2 (Qplus (omega_xi par))
                                   (small_omega_var_div s !!! n)))]> big)
           (λ n b,
              add2 b (div2 (abs2 (small_omega_var s !!! n))
                           (map2 (Qplus (omega_xi par))
                                 (small_omega_var_div s !!! n)))));
    try assumption.
  - intros. apply lookup_total_insert_eq.
  - intros. apply lookup_total_insert_ne. assumption.
Qed.

Lemma reset_lookup (m : gmap string tensor2) n :
  n ∈ vars.*1 →
  fold_left (λ m '(n, _), <[n := mulc (m !!! n) 0]> m) vars m !!! n
  = mulc (m !!! n) 0.
Proof.
  intros Hin.
  apply (keyed_fold_lookup (λ n m, <[n := mulc (m !!! n) 0]> m)
                           (λ _ a, mulc a 0)); try assumption.
  - intros. apply lookup_total_insert_eq.
  - intros. apply lookup_total_insert_ne. assumption.
Qed.

(** C1, amended.  In RL mode [update_big_omega] adds to every entry of the
    importance weight of every trainable variable the absolute value of the
    small accumulator divided by [omega_xi] plus the divisor, and the reset
    that follows leaves 0 in every entry of both accumulators and does not
    touch the importance weights. *)
Theorem consolidate_adds_abs s n r j b sm d :
  n ∈ vars.*1 →
  widths (big_omega_var s !!! n) = widths (small_omega_var s !!! n) →
  widths (small_omega_var s !!! n) = widths (small_omega_var_div s !!! n) →
  entry2 (big_omega_var s !!! n) r j = Some b →
  entry2 (small_omega_var s !!! n) r j = Some sm →
  entry2 (small_omega_var_div s !!! n) r j = Some d →
  let s1 := update_big_omega par vars s in
  let s2 := reset_small_omega vars s1 in
  entry2 (big_omega_var s1 !!! n) r j
    = Some (b + Qabs sm / (omega_xi par + d))
  ∧ (∃ z, entry2 (small_omega_var s2 !!! n) r j = Some z ∧ z == 0)
  ∧ (∃ z, entry2 (small_omega_var_div s2 !!! n) r j = Some z ∧ z == 0)
  ∧ big_omega_var s2 = big_omega_var s1.
Proof.
  intros Hin Hw1 Hw2 Hb Hsm Hd s1 s2. subst s1 s2.
  split; [|split; [|split]].
  - rewrite update_big_omega_lookup by exact Hin.
    unfold add2, div2, abs2.
    rewrite (bop2_same Qdiv) by (rewrite !widths_map2; exact Hw2).
    rewrite (bop2_same Qplus)
      by (rewrite widths_zip; rewrite !widths_map2; assumption).
    apply entry2_zip; [exact Hb|].
    apply entry2_zip; rewrite entry2_map2.
    + rewrite Hsm. reflexivity.
    + rewrite Hd. reflexivity.
  - exists (sm * 0). split; [|ring].
    unfold reset_small_omega. simpl. rewrite reset_lookup by exact Hin.
    unfold mulc. rewrite entry2_map2, Hsm. reflexivity.
  - exists (d * 0). split; [|ring].
    unfold reset_small_omega. simpl. rewrite reset_lookup by exact Hin.
    unfold mulc. rewrite entry2_map2, Hd. reflexivity.
  - reflexivity.
Qed.

End PathintProps.

(** The consolidation of the one-variable state. *)
Lemma consolidate_adds_abs_witness :
  training_method Run.par = "RL"%string
  ∧ NoDup one_var.*1
  ∧ entry2 (big_omega_var (update_big_omega Run.par one_var stab_after_step)
              !!! "network/Wf0"%string) 0 0
    = Some (0 + Qabs (-1) / (omega_xi Run.par + 1)).
Proof.
  assert (Hnd : NoDup one_var.*1)
    by (apply NoDup_cons; split; [apply not_elem_of_nil | apply NoDup_nil_2]).
  split; [reflexivity|]. split; [exact Hnd|].
  apply (consolidate_adds_abs Run.par one_var eq_refl Hnd stab_after_step
           "network/Wf0"%string 0 0 0 (-1) 1).
  - apply list_elem_of_singleton. reflexivity.
  - vm_compute. reflexivity.
  - vm_compute. reflexivity.
  - vm_compute. reflexivity.
  - vm_compute. reflexivity.
  - vm_compute. reflexivity.
Defined.

(** C1, as claimed, fails on that state: the small accumulator is -1, the
    divisor is 1 and [omega_xi] is 1/100, so that the claimed increment is
    -100/101; the importance weight goes from 0 to +100/101. *)
Lemma consolidate_not_signed :
  small_omega_var stab_after_step !!! "network/Wf0"%string = [[-1]]
  ∧ small_omega_var_div stab_after_step !!! "network/Wf0"%string = [[1]]
  ∧ big_omega_var (update_big_omega Run.par one_var stab_after_step)
      !!! "network/Wf0"%string = [[100 # 101]]
  ∧ add2 (big_omega_var stab_after_step !!! "network/Wf0"%string)
         (signed_increment Run.par stab_after_step "network/Wf0")
    = [[-100 # 101]]
  ∧ ¬ teq2 (big_omega_var (update_big_omega Run.par one_var stab_after_step)
              !!! "network/Wf0"%string)
           (add2 (big_omega_var stab_after_step !!! "network/Wf0"%string)
                 (signed_increment Run.par stab_after_step "network/Wf0")).
Proof.
  split; [vm_compute; reflexivity|].
  split; [vm_compute; reflexivity|].
  split; [vm_compute; reflexivity|].
  split; [vm_compute; reflexivity|].
  vm_compute. intros H.
  inversion H as [|? ? ? ? Hrow _]; subst.
  inversion Hrow as [|? ? ? ? Hv _]; subst. discriminate Hv.
Qed.


(** ** The entropy loss *)

(** C4 on the trajectory of a run ([log] is any function).  With two batch
    elements and three actions the entropy loss of [optimize] is -2/3 of
    [log(epsilon + 1/3)], while the sum over the actions averaged over the
    batch gives -1 times it: [optimize] sums over axis 1 of the stacked
    tensor, which is the batch.  In the total loss the entropy loss is
    subtracted. *)
Theorem entropy_loss_sums_over_batch (log : Q → Q) :
  mask_rec records_entropy = [[[1]; [1]]]
  ∧ pol_out_rec records_entropy
    = [[[1 # 3; 1 # 3; 1 # 3]; [1 # 3; 1 # 3; 1 # 3]]]
  ∧ entropy_loss par_entropy log records_entropy
    == - (2 # 3) * log (epsilon + (1 # 3))
  ∧ entropy_loss_over_actions par_entropy log records_entropy
    == - log (epsilon + (1 # 3))
  ∧ ∀ k vars stab,
      total_loss par_entropy log k records_entropy vars stab
      = inr (0
             + (pol_loss par_entropy log records_entropy
                + val_loss par_entropy records_entropy
                - entropy_loss par_entropy log records_entropy
                + pred_loss par_entropy records_entropy)
             + aux_loss par_entropy vars stab
             + spike_loss par_entropy k records_entropy).
Proof.
  assert (Hm : mask_rec records_entropy = [[[1]; [1]]])
    by (vm_compute; reflexivity).
  assert (Hp : pol_out_rec records_entropy
               = [[[1 # 3; 1 # 3; 1 # 3]; [1 # 3; 1 # 3; 1 # 3]]])
    by (vm_compute; reflexivity).
  split; [exact Hm|]. split; [exact Hp|]. split; [|split].
  - unfold entropy_loss, entropy_terms, log_pol. rewrite Hm, Hp.
    unfold time_mask3, time_mask, reduce_mean2, mean1, flat2, sum1.
    cbn -[Qmult Qplus Qdiv Qopp Qeq epsilon].
    generalize (log (epsilon + (1 # 3))). intros L. field.
  - unfold entropy_loss_over_actions, entropy_terms, log_pol. rewrite Hm, Hp.
    unfold time_mask3, time_mask, reduce_mean2, mean1, flat2, sum1.
    cbn -[Qmult Qplus Qdiv Qopp Qeq epsilon].
    generalize (log (epsilon + (1 # 3))). intros L. field.
  - intros k vars stab. reflexivity.
Qed.

(** ** The names of the variables and [W_rnn] *)

Lemma digits_without_W_rnn u :
  contains "W_rnn" (NilEmpty.string_of_uint u) = false.
Proof. induction u; simpl; try reflexivity; exact IHu. Qed.

Lemma trainable_names_without_W_rnn par vd :
  Forall (λ nv, contains "W_rnn" nv.1 = false) (trainable_variables par vd).
Proof.
  unfold trainable_variables. apply Forall_app. split.
  - apply Forall_concat. unfold lstm_var_prefixes.
    repeat (apply Forall_cons; split);
      try (apply Forall_fmap, Forall_true; intros i; simpl;
           apply digits_without_W_rnn).
    apply Forall_nil_2.
  - unfold rl_var_prefixes. repeat (apply Forall_cons; split);
      try reflexivity. apply Forall_nil_2.
Qed.

(** C10 on the code.  None of the variables that [declare_variables]
    creates has [W_rnn] in its name, so that running
    [self.reset_rnn_weights] changes no variable, whatever the number of
    cells and the values: a recurrent weight of -1 stays -1. *)
Theorem make_recurrent_weights_positive_changes_nothing par vd :
  make_recurrent_weights_positive (trainable_variables par vd)
  = trainable_variables par vd.
Proof.
  unfold make_recurrent_weights_positive.
  rewrite <- (list_fmap_id (trainable_variables par vd)) at 2.
  apply Forall_fmap_ext.
  eapply Forall_impl; [apply trainable_names_without_W_rnn|].
  intros [n v] Hn. simpl in *. rewrite Hn. reflexivity.
Qed.

Example recurrent_weight_stays_negative :
  (make_recurrent_weights_positive
     (trainable_variables Run.par var_dict_negative)) !! 8%nat
  = Some ("network/Uf0"%string, [[-1]]).
Proof. vm_compute. reflexivity. Qed.

(** ** The entry point *)



(** * Further properties of the loop over time *)

Section Recording.

Variable par : Par.
Variable var_dict : VarDict.
Variables sigmoid tanh : Q → Q.
Variable softmax : tensor2 → tensor2.
Variable multinomial : nat → nat → tensor1 → nat.
Variable make_inputs : nat → tensor1.
Variable agent_action : nat → tensor2 → tensor2 → tensor1.

Local Abbreviation cell_step' := (cell_step par var_dict sigmoid tanh).
Local Abbreviation time_step' :=
  (time_step par var_dict sigmoid tanh softmax multinomial make_inputs
     agent_action).
Local Abbreviation run_steps' :=
  (run_steps par var_dict sigmoid tanh softmax multinomial make_inputs
     agent_action).
Local Abbreviation trajectory :=
  (rnn_cell_loop par var_dict sigmoid tanh softmax multinomial make_inputs
     agent_action).2.

Lemma cell_step_timeline inputs s i :
  timeline (cell_step' inputs s i).2 = timeline s.2
  ∧ reward (cell_step' inputs s i).1 = reward s.1.
Proof.
  destruct s as [k r]. unfold cell_step.
  destruct (predictive_cell _ _ _ _ _ _ _ _ _ _) as [erv [[hi ci] err]].
  split; reflexivity.
Qed.

Lemma cells_timeline inputs l s :
  timeline (fold_left (cell_step' inputs) l s).2 = timeline s.2
  ∧ reward (fold_left (cell_step' inputs) l s).1 = reward s.1.
Proof.
  revert s. induction l as [|i l IH]; intros s; simpl; [split; reflexivity|].
  destruct (IH (cell_step' inputs s i)) as [H1 H2].
  destruct (cell_step_timeline inputs s i) as [G1 G2].
  rewrite H1, H2, G1, G2. split; reflexivity.
Qed.

(** A step appends one entry to each of the seven records; the entry of
    [actual_reward_vector] is the reward the step started with. *)
Lemma time_step_timeline s t :
  ∃ x m p v a w,
    timeline (time_step' s t).2
    = (input_data s.2 ++ [x], mask_rec s.2 ++ [m], pol_out_rec s.2 ++ [p],
       val_out_rec s.2 ++ [v], action_rec s.2 ++ [a], reward_rec s.2 ++ [w],
       actual_reward_vector s.2 ++ [reward s.1])
    ∧ reward (time_step' s t).1 = w
    ∧ (∃ logits, a = sample_action par multinomial t logits).
Proof.
  destruct s as [k0 r0]. unfold time_step.
  match goal with
  | |- context [fold_left (cell_step' ?i) ?l ?s0] =>
      generalize (cells_timeline i l s0);
      destruct (fold_left (cell_step' i) l s0) as [k r]
  end.
  intros [H1 H2]. unfold timeline in *. simpl in *.
  injection H1 as E1 E2 E3 E4 E5 E6 E7.
  rewrite E1, E2, E3, E4, E5, E6, E7, H2.
  do 6 eexists. split; [reflexivity|]. split; [reflexivity|].
  eexists. reflexivity.
Qed.

Lemma timeline_lengths n :
  let r := (run_steps' n).2 in
  length (input_data r) = n ∧ length (mask_rec r) = n
  ∧ length (pol_out_rec r) = n ∧ length (val_out_rec r) = n
  ∧ length (action_rec r) = n ∧ length (reward_rec r) = n
  ∧ length (actual_reward_vector r) = n.
Proof.
  induction n as [|n IH]; [repeat split|].
  rewrite run_steps_S. cbv zeta in *.
  destruct IH as (L1 & L2 & L3 & L4 & L5 & L6 & L7).
  destruct (time_step_timeline (run_steps' n) n)
    as (x & m & p & v & a & w & E & _).
  unfold timeline in E. injection E as -> -> -> -> -> -> ->.
  rewrite !length_app. simpl. repeat split; lia.
Qed.

(** Every run records exactly one observation, mask, policy, value,
    action and reward per time step, whatever the network, the sampler and
    the environment do. *)
Theorem trajectory_length :
  length (input_data trajectory) = num_time_steps par
  ∧ length (mask_rec trajectory) = num_time_steps par
  ∧ length (pol_out_rec trajectory) = num_time_steps par
  ∧ length (val_out_rec trajectory) = num_time_steps par
  ∧ length (action_rec trajectory) = num_time_steps par
  ∧ length (reward_rec trajectory) = num_time_steps par
  ∧ length (actual_reward_vector trajectory) = num_time_steps par.
Proof. apply timeline_lengths. Qed.

Lemma actual_reward_lags n :
  fill2 (batch_size par) (n_val par) 0 :: reward_rec (run_steps' n).2
  = actual_reward_vector (run_steps' n).2 ++ [reward (run_steps' n).1].
Proof.
  induction n as [|n IH]; [reflexivity|].
  rewrite run_steps_S.
  destruct (time_step_timeline (run_steps' n) n)
    as (x & m & p & v & a & w & E & Hw & _).
  unfold timeline in E. injection E as _ _ _ _ _ -> ->.
  rewrite Hw, app_comm_cons, IH. reflexivity.
Qed.

(** [actual_reward_vector] is the recorded reward one step late: its first
    entry is the zero reward the loop starts with, and its entry for step
    [t + 1] is the reward recorded at step [t]; the reward of the last step
    is not in it. *)
Theorem actual_reward_vector_is_delayed_reward :
  actual_reward_vector trajectory
  = take (num_time_steps par)
         (fill2 (batch_size par) (n_val par) 0 :: reward_rec trajectory).
Proof.
  unfold rnn_cell_loop. rewrite actual_reward_lags.
  destruct (timeline_lengths (num_time_steps par)) as (_ & _ & _ & _ & _ & _ & L).
  cbv zeta in L. rewrite <- L at 2. rewrite take_app_length. reflexivity.
Qed.

(** Every recorded action is a one-hot row per batch row of the logits,
    at the index the sampler drew. *)
Lemma actions_one_hot n :
  Forall (Forall (λ row, ∃ k, row = one_hot (n_pol par) k))
         (action_rec (run_steps' n).2).
Proof.
  induction n as [|n IH]; [constructor|].
  rewrite run_steps_S.
  destruct (time_step_timeline (run_steps' n) n)
    as (x & m & p & v & a & w & E & _ & logits & ->).
  unfold timeline in E. injection E as _ _ _ _ -> _ _.
  apply Forall_app. split; [exact IH|]. constructor; [|constructor].
  unfold sample_action. apply Forall_lookup_2. intros b row Hrow.
  apply list_lookup_imap_Some in Hrow as (lrow & _ & ->).
  eexists. reflexivity.
Qed.

End Recording.

Lemma one_hot_sum_from k s n :
  sum1 ((λ j, if (j =? k)%nat then 1 else 0) <$> seq s n)
  == if ((s <=? k)%nat && (k <? s + n)%nat)%bool then 1 else 0.
Proof.
  revert s. induction n as [|n IH]; intros s; simpl.
  - destruct (Nat.leb_spec s k), (Nat.ltb_spec k (s + 0)); simpl;
      try reflexivity; lia.
  - rewrite IH.
    destruct (Nat.eqb_spec s k), (Nat.leb_spec (S s) k),
      (Nat.ltb_spec k (S s + n)), (Nat.leb_spec s k),
      (Nat.ltb_spec k (s + S n)); simpl; try reflexivity; try lia.
Qed.

Lemma one_hot_sum depth k :
  sum1 (one_hot depth k) == if (k <? depth)%nat then 1 else 0.
Proof. unfold one_hot. rewrite one_hot_sum_from. reflexivity. Qed.

Lemma one_hot_length depth k : length (one_hot depth k) = depth.
Proof. unfold one_hot. rewrite length_fmap. apply length_seq. Qed.


(** ** One reward per trial *)

Lemma scale_as_zip c (v : tensor1) :
  Qmult c <$> v = zip_with Qmult (replicate (length v) c) v.
Proof. induction v as [|x v IH]; simpl; [reflexivity|]. f_equal. exact IH. Qed.

Section Rewards.

Variable par : Par.
Variable var_dict : VarDict.
Variables sigmoid tanh : Q → Q.
Variable softmax : tensor2 → tensor2.
Variable multinomial : nat → nat → tensor1 → nat.
Variable make_inputs : nat → tensor1.
Variable agent_action : nat → tensor2 → tensor2 → tensor1.

Local Abbreviation time_step' :=
  (time_step par var_dict sigmoid tanh softmax multinomial make_inputs
     agent_action).
Local Abbreviation run_steps' :=
  (run_steps par var_dict sigmoid tanh softmax multinomial make_inputs
     agent_action).
Local Abbreviation trajectory :=
  (rnn_cell_loop par var_dict sigmoid tanh softmax multinomial make_inputs
     agent_action).2.

Hypothesis Hval : n_val par = 1%nat.
Hypothesis Henv : ∀ t a m, length (agent_action t a m) = batch_size par.

(** The reward of a step is the feedback times the mask of the step. *)
Lemma step_reward s t :
  (t < num_time_steps par)%nat → good par s →
  ∃ vm vr vm' fb,
    mask s.1 = colT vm ∧ reward s.1 = colT vr
    ∧ mask (time_step' s t).1 = colT vm'
    ∧ reward (time_step' s t).1
      = colT (zip_with Qmult (zip_with Qmult fb vm')
                       (replicate (batch_size par) 1))
    ∧ length vm = batch_size par ∧ length vr = batch_size par
    ∧ length vm' = batch_size par ∧ length fb = batch_size par
    ∧ Forall bit vm ∧ Forall bit vm'
    ∧ vm' = zip_with Qmult vm (is_zero <$> vr).
Proof.
  intros Ht (vm & vr & Hm & Hr & Lm & Lr & Bm).
  destruct (time_step_eqs par var_dict sigmoid tanh softmax multinomial
              make_inputs agent_action s t) as (E1 & E2 & _).
  cbv zeta in E1, E2. rewrite <- E1 in E2.
  rewrite Hm, Hr, continue_trial_colT in E1. unfold mul2 in E1.
  rewrite bop2_colT in E1 by (rewrite length_fmap; lia).
  set (vm' := zip_with Qmult vm (is_zero <$> vr)) in *.
  assert (Lm' : length vm' = batch_size par).
  { unfold vm'. rewrite length_zip_with, length_fmap. lia. }
  assert (Htm : reshape2 (batch_size par) 1 (time_mask par !!! t)
                = colT (replicate (batch_size par) 1)).
  { unfold time_mask. rewrite lookup_total_replicate_2 by exact Ht.
    rewrite <- (length_replicate (batch_size par) 1) at 1.
    apply reshape2_colT. }
  rewrite Htm, E1 in E2. unfold feedback in E2.
  destruct (Nat.ltb_spec t (num_time_steps par - 2)) as [Hlt|Hge].
  - rewrite <- (Henv t (action (time_step' s t).1) (colT vm')) in E2 at 1.
    rewrite reshape2_colT in E2. unfold mul2 in E2.
    rewrite !bop2_colT in E2
      by (rewrite ?length_zip_with, ?length_replicate, ?Henv; lia).
    exists vm, vr, vm'. eexists.
    split; [exact Hm|]. split; [exact Hr|].
    split; [exact E1|]. split; [exact E2|].
    repeat split; try assumption.
    + apply Henv.
    + apply mask_update_bits, Bm.
  - unfold mul2 in E2. rewrite bop2_scalar, map2_colT in E2.
    rewrite bop2_colT in E2 by (rewrite length_fmap, length_replicate; lia).
    rewrite scale_as_zip in E2.
    exists vm, vr, vm'. eexists.
    split; [exact Hm|]. split; [exact Hr|].
    split; [exact E1|]. split; [exact E2|].
    repeat split; try assumption.
    + rewrite length_replicate. exact Lm'.
    + apply mask_update_bits, Bm.
Qed.

(** At every step the recorded reward of a batch element is some feedback
    times its recorded mask. *)
Lemma reward_of_mask t b :
  (t < num_time_steps par)%nat → (b < batch_size par)%nat →
  ∃ m q f, mask_at trajectory t b = Some m
           ∧ reward_at trajectory t b = Some q
           ∧ bit m ∧ q == f * m.
Proof.
  intros Ht Hb. unfold rnn_cell_loop.
  destruct (step_reward (run_steps' t) t) as
    (vm & vr & vm' & fb & _ & _ & Hm' & Hr' & _ & _ & Lm' & Lf & _ & Bm' & _);
    [lia | apply good_run; assumption || lia |].
  rewrite <- run_steps_S in Hm', Hr'.
  rewrite (mask_at_recorded _ _ _ _ _ _ _ _ Hval _ t b vm'),
    (reward_at_recorded _ _ _ _ _ _ _ _ Hval _ t b _ Ht Hr') by assumption.
  destruct (lookup_lt_is_Some_2 vm' b) as [m Hm]; [lia|].
  destruct (lookup_lt_is_Some_2 fb b) as [f Hf]; [lia|].
  exists m, (f * m * 1), f.
  split; [exact Hm|]. split.
  - rewrite lookup_zip_with, lookup_zip_with, Hf, Hm. simpl.
    rewrite lookup_replicate_2 by exact Hb. reflexivity.
  - split; [exact (Forall_lookup_1 _ _ _ _ Bm' Hm) | ring].
Qed.

(** The mask of the next step is the mask of this step where this step's
    reward is zero, and 0 where it is not. *)
Lemma mask_of_reward t b :
  (S t < num_time_steps par)%nat → (b < batch_size par)%nat →
  ∃ m q, mask_at trajectory t b = Some m
         ∧ reward_at trajectory t b = Some q
         ∧ mask_at trajectory (S t) b = Some (m * is_zero q).
Proof.
  intros Ht Hb. unfold rnn_cell_loop.
  destruct (step_reward (run_steps' (S t)) (S t)) as
    (vm & vr & vm' & fb & Hm & Hr & Hm' & _ & Lm & Lr & _ & _ & _ & _ & E);
    [lia | apply good_run; assumption || lia |].
  rewrite <- run_steps_S in Hm'.
  rewrite (mask_at_recorded _ _ _ _ _ _ _ _ Hval _ t b vm),
    (reward_at_recorded _ _ _ _ _ _ _ _ Hval _ t b vr),
    (mask_at_recorded _ _ _ _ _ _ _ _ Hval _ (S t) b vm')
    by (try lia; assumption).
  destruct (lookup_lt_is_Some_2 vm b) as [m Hmb]; [lia|].
  destruct (lookup_lt_is_Some_2 vr b) as [q Hqb]; [lia|].
  exists m, q. split; [exact Hmb|]. split; [exact Hqb|].
  rewrite E, lookup_zip_with, Hmb, list_lookup_fmap, Hqb. reflexivity.
Qed.

Lemma mask_zero_later t t' b q :
  (t <= t')%nat → (t' < num_time_steps par)%nat → (b < batch_size par)%nat →
  mask_at trajectory t b = Some q → q == 0 →
  ∃ q', mask_at trajectory t' b = Some q' ∧ q' == 0.
Proof.
  intros Hle. induction Hle as [|t' Hle IH]; intros Ht' Hb Hq Hq0.
  - exists q. split; assumption.
  - destruct IH as (q1 & Hq1 & Hz1); try assumption; [lia|].
    destruct (mask_next par var_dict sigmoid tanh softmax multinomial
                make_inputs agent_action Hval Henv t' b Ht' Hb)
      as (p & p' & Hp & Hp' & _ & Bp' & Hpp).
    unfold rnn_cell_loop in *. rewrite Hq1 in Hp. injection Hp as <-.
    exists p'. split; [assumption|].
    destruct Bp' as [H0|H1]; [assumption|]. rewrite H1, Hz1 in Hpp. lra.
Qed.

(** At every step of every run, the recorded reward of a batch element
    whose recorded mask is 0 is 0: a trial that has ended gets no further
    reward, from the environment or as a penalty. *)
Theorem no_reward_after_the_end t b :
  (t < num_time_steps par)%nat → (b < batch_size par)%nat →
  ∃ m q, mask_at trajectory t b = Some m
         ∧ reward_at trajectory t b = Some q
         ∧ bit m ∧ (m == 0 → q == 0).
Proof.
  intros Ht Hb.
  destruct (reward_of_mask t b Ht Hb) as (m & q & f & Hm & Hq & Bm & E).
  exists m, q. repeat split; try assumption.
  intros H0. rewrite E, H0. ring.
Qed.

(** A reward that is not zero ends the trial: at the next step the mask of
    that batch element is 0. *)
Theorem nonzero_reward_ends_trial t b q :
  (S t < num_time_steps par)%nat → (b < batch_size par)%nat →
  reward_at trajectory t b = Some q → ¬ q == 0 →
  ∃ m, mask_at trajectory (S t) b = Some m ∧ m == 0.
Proof.
  intros Ht Hb Hq Hnz.
  destruct (mask_of_reward t b Ht Hb) as (m & q' & Hm & Hq' & Hnext).
  unfold rnn_cell_loop in *. rewrite Hq in Hq'. injection Hq' as <-.
  exists (m * is_zero q). split; [exact Hnext|].
  unfold is_zero. destruct (Qeq_bool q 0) eqn:E; [|ring].
  apply Qeq_bool_iff in E. contradiction.
Qed.

(** Every trial receives at most one reward that is not zero: after a step
    with a non-zero reward, the recorded reward of that batch element is 0
    at every later step. *)
Theorem one_reward_per_trial t t' b q :
  (t < t')%nat → (t' < num_time_steps par)%nat → (b < batch_size par)%nat →
  reward_at trajectory t b = Some q → ¬ q == 0 →
  ∃ q', reward_at trajectory t' b = Some q' ∧ q' == 0.
Proof.
  intros Htt Ht' Hb Hq Hnz.
  destruct (mask_of_reward t b) as (m & q0 & Hm & Hq0 & Hnext);
    [lia | exact Hb |].
  unfold rnn_cell_loop in *. rewrite Hq in Hq0. injection Hq0 as <-.
  assert (Hz : m * is_zero q == 0).
  { unfold is_zero. destruct (Qeq_bool q 0) eqn:E; [|ring].
    apply Qeq_bool_iff in E. contradiction. }
  destruct (mask_zero_later (S t) t' b _ Htt Ht' Hb Hnext Hz)
    as (m' & Hm' & Hz').
  destruct (reward_of_mask t' b Ht' Hb) as (m2 & q' & f & Hm2 & Hq' & _ & E).
  unfold rnn_cell_loop in *. rewrite Hm' in Hm2. injection Hm2 as <-.
  exists q'. split; [exact Hq'|]. rewrite E, Hz'. ring.
Qed.

Lemma colT_inj u v : colT u = colT v → u = v.
Proof.
  revert v. induction u as [|x u IH]; intros [|y v] H; simpl in H;
    try reflexivity; try discriminate.
  injection H as -> H. f_equal. apply IH, H.
Qed.

(** At the first step every batch element is active: its recorded mask is
    1, since the loop starts with reward 0. *)
Theorem first_mask_is_one b :
  (0 < num_time_steps par)%nat → (b < batch_size par)%nat →
  mask_at trajectory 0 b = Some 1.
Proof.
  intros HT Hb. unfold rnn_cell_loop.
  destruct (step_reward (run_steps' 0) 0 HT (good_init _ _ _ _ _ _ _ _ Hval))
    as
    (vm & vr & vm' & fb & Hm & Hr & Hm' & _ & _ & _ & _ & _ & _ & _ & E).
  rewrite <- run_steps_S in Hm'.
  rewrite (mask_at_recorded _ _ _ _ _ _ _ _ Hval _ 0 b vm' HT Hm').
  unfold run_steps in Hm, Hr. simpl in Hm, Hr.
  rewrite Hval, fill2_colT in Hr. rewrite fill2_colT in Hm.
  apply colT_inj in Hm, Hr. subst vm vr.
  rewrite E, lookup_zip_with, list_lookup_fmap.
  rewrite !lookup_replicate_2 by exact Hb. reflexivity.
Qed.

End Rewards.

(** The small run: step 2 has mask 0 and reward 0; step 1 has the only
    reward that is not zero. *)
Lemma no_reward_after_the_end_witness :
  n_val Run.par = 1%nat
  ∧ (∀ t a m, length (Run.agent_action t a m) = batch_size Run.par)
  ∧ ∃ m q, mask_at Run.loop.2 2 0 = Some m ∧ reward_at Run.loop.2 2 0 = Some q
           ∧ (m == 0 → q == 0).
Proof.
  split; [reflexivity|]. split; [reflexivity|].
  destruct (no_reward_after_the_end Run.par Run.var_dict Run.sigmoid Run.tanh
              Run.softmax Run.multinomial Run.make_inputs Run.agent_action
              eq_refl (λ _ _ _, eq_refl) 2%nat 0%nat)
    as (m & q & Hm & Hq & _ & H); [simpl; lia | simpl; lia |].
  exists m, q. split; [exact Hm|]. split; [exact Hq | exact H].
Defined.

Local Abbreviation run_trajectory :=
  (rnn_cell_loop Run.par Run.var_dict Run.sigmoid Run.tanh Run.softmax
     Run.multinomial Run.make_inputs Run.agent_action).2.

Lemma nonzero_reward_ends_trial_witness :
  reward_at run_trajectory 1 0 = Some (-1)
  ∧ ∃ m, mask_at run_trajectory 2 0 = Some m ∧ m == 0.
Proof.
  assert (Hq : reward_at run_trajectory 1 0 = Some (-1))
    by (vm_compute; reflexivity).
  assert (Hnz : ¬ -1 == 0) by (intros H; discriminate H).
  split; [exact Hq|].
  destruct (nonzero_reward_ends_trial Run.par Run.var_dict Run.sigmoid
              Run.tanh Run.softmax Run.multinomial Run.make_inputs
              Run.agent_action eq_refl (λ _ _ _, eq_refl) 1%nat 0%nat (-1))
    as (m & Hm & Hz); [simpl; lia | simpl; lia | exact Hq | exact Hnz |].
  exists m. split; [exact Hm | exact Hz].
Defined.

Lemma one_reward_per_trial_witness :
  reward_at run_trajectory 1 0 = Some (-1)
  ∧ ∃ q', reward_at run_trajectory 2 0 = Some q' ∧ q' == 0.
Proof.
  assert (Hq : reward_at run_trajectory 1 0 = Some (-1))
    by (vm_compute; reflexivity).
  assert (Hnz : ¬ -1 == 0) by (intros H; discriminate H).
  split; [exact Hq|].
  destruct (one_reward_per_trial Run.par Run.var_dict Run.sigmoid
              Run.tanh Run.softmax Run.multinomial Run.make_inputs
              Run.agent_action eq_refl (λ _ _ _, eq_refl) 1%nat 2%nat 0%nat
              (-1))
    as (q' & Hq' & Hz); [lia | simpl; lia | simpl; lia | exact Hq | exact Hnz |].
  exists q'. split; [exact Hq' | exact Hz].
Defined.

Lemma first_mask_is_one_witness :
  n_val Run.par = 1%nat ∧ mask_at run_trajectory 0 1 = Some 1.
Proof.
  split; [reflexivity|].
  apply (first_mask_is_one Run.par Run.var_dict Run.sigmoid Run.tanh
           Run.softmax Run.multinomial Run.make_inputs Run.agent_action
           eq_refl (λ _ _ _, eq_refl) 1%nat); simpl; lia.
Defined.

(** ** The prediction-error diagnostics *)

Lemma sum1_nonneg v : Forall (λ x, 0 <= x) v → 0 <= sum1 v.
Proof.
  induction 1 as [|x v Hx _ IH]; simpl; [apply Qle_refl|].
  change (0 <= x + sum1 v). lra.
Qed.

Lemma mean1_nonneg v : Forall (λ x, 0 <= x) v → 0 <= mean1 v.
Proof.
  intros Hv. unfold mean1. pose proof (sum1_nonneg v Hv) as Hs.
  destruct (length v) as [|n].
  - unfold Qdiv. simpl. rewrite Qmult_0_r. apply Qle_refl.
  - apply Qle_shift_div_l.
    + change 0 with (inject_Z 0). rewrite <- Zlt_Qlt. lia.
    + rewrite Qmult_0_l. exact Hs.
Qed.

Lemma reduce_mean2_nonneg a : nonneg2 a → 0 <= reduce_mean2 a.
Proof.
  intros Ha. apply mean1_nonneg. unfold flat2.
  apply Forall_concat. exact Ha.
Qed.

Lemma nonneg2_concat_cols a b :
  nonneg2 a → nonneg2 b → nonneg2 (concat_cols a b).
Proof.
  unfold nonneg2, concat_cols. intros Ha. revert b.
  induction Ha as [|x a Hx _ IH]; intros b Hb; simpl; [constructor|].
  destruct Hb as [|y b Hy Hb]; constructor.
  - apply Forall_app. split; assumption.
  - apply IH, Hb.
Qed.

Lemma nonneg3_stack_last a b : nonneg2 a → nonneg2 b → nonneg3 (stack_last a b).
Proof.
  unfold nonneg2, nonneg3, stack_last. intros Ha. revert b.
  induction Ha as [|x a Hx _ IH]; intros b Hb; simpl; [constructor|].
  destruct Hb as [|y b Hy Hb]; constructor; [|apply IH, Hb].
  clear -Hx Hy. revert y Hy.
  induction Hx as [|u x Hu _ IHx]; intros y Hy; simpl; [constructor|].
  destruct Hy as [|v y Hv Hy]; constructor; [|apply IHx, Hy].
  repeat constructor; assumption.
Qed.

Lemma nonneg3_split_error par err : nonneg2 err → nonneg3 (split_error par err).
Proof.
  intros He. unfold split_error. apply nonneg3_stack_last.
  - unfold cols_to, nonneg2. apply Forall_fmap.
    eapply Forall_impl; [exact He|]. intros row Hrow. simpl.
    apply Forall_take, Hrow.
  - unfold cols_from, nonneg2. apply Forall_fmap.
    eapply Forall_impl; [exact He|]. intros row Hrow. simpl.
    apply Forall_drop, Hrow.
Qed.

Lemma nonneg2_slice_ind lo hi ind es :
  nonneg3 es → nonneg2 (slice_ind lo hi ind es).
Proof.
  intros He. unfold slice_ind, nonneg2. apply Forall_fmap.
  eapply Forall_impl; [exact He|]. intros row Hrow. simpl.
  apply Forall_fmap. apply Forall_take, Forall_drop.
  eapply Forall_impl; [exact Hrow|]. intros p Hp. simpl.
  revert ind. induction Hp as [|x p Hx _ IH]; intros [|ind]; simpl;
    try apply Qle_refl; [exact Hx | apply IH].
Qed.

Lemma append_at_nonneg i v ll :
  0 <= v → Forall (Forall (λ x, 0 <= x)) ll →
  Forall (Forall (λ x, 0 <= x)) (append_at i v ll).
Proof.
  intros Hv Hll. unfold append_at. revert i.
  induction Hll as [|l ll Hl Hll IH]; intros [|i]; simpl; constructor;
    try assumption.
  - apply Forall_app. split; [exact Hl | repeat constructor; exact Hv].
  - apply IH.
Qed.

Lemma record_errors_nonneg par i ind es r :
  nonneg3 es → diagnostics_nonneg r →
  diagnostics_nonneg (record_errors par i ind es r).
Proof.
  intros He (H1 & H2 & H3 & H4). unfold record_errors, diagnostics_nonneg.
  simpl.
  pose proof (reduce_mean2_nonneg _
                (nonneg2_slice_ind 0 (n_input par) ind es He)) as Hs.
  pose proof (reduce_mean2_nonneg _
                (nonneg2_slice_ind (n_input par) (n_input par + 1) ind es He))
    as Hr.
  pose proof (reduce_mean2_nonneg _
                (nonneg2_slice_ind (n_input par + 1) (n_input par + 10) ind
                   es He)) as Ha.
  repeat split; apply append_at_nonneg; try assumption.
  lra.
Qed.

Section Diagnostics.

Variable par : Par.
Variable var_dict : VarDict.
Variables sigmoid tanh : Q → Q.
Variable softmax : tensor2 → tensor2.
Variable multinomial : nat → nat → tensor1 → nat.
Variable make_inputs : nat → tensor1.
Variable agent_action : nat → tensor2 → tensor2 → tensor1.

Local Abbreviation cell_step' := (cell_step par var_dict sigmoid tanh).
Local Abbreviation time_step' :=
  (time_step par var_dict sigmoid tanh softmax multinomial make_inputs
     agent_action).
Local Abbreviation run_steps' :=
  (run_steps par var_dict sigmoid tanh softmax multinomial make_inputs
     agent_action).

(** What a cell does to the diagnostics and to the expected rewards: cell
    1, and no other, appends one expected reward. *)
Lemma cell_step_diagnostics inputs s i :
  (diagnostics_nonneg s.2 → diagnostics_nonneg (cell_step' inputs s i).2)
  ∧ length (expected_reward_vector (cell_step' inputs s i).2)
    = (length (expected_reward_vector s.2) + if (i =? 1)%nat then 1 else 0)%nat.
Proof.
  destruct s as [k r]. unfold cell_step, predictive_cell. simpl. split.
  - intros Hr.
    apply record_errors_nonneg; [|apply record_errors_nonneg];
      try (apply nonneg3_split_error, nonneg2_concat_cols; apply relu2_nonneg).
    exact Hr.
  - destruct (i =? 1)%nat; [rewrite length_app; simpl|]; lia.
Qed.

Lemma cells_diagnostics inputs l s :
  (diagnostics_nonneg s.2 →
   diagnostics_nonneg (fold_left (cell_step' inputs) l s).2)
  ∧ length (expected_reward_vector (fold_left (cell_step' inputs) l s).2)
    = (length (expected_reward_vector s.2)
       + length (filter (λ i, i = 1%nat) l))%nat.
Proof.
  revert s. induction l as [|i l IH]; intros s; simpl; [split; [tauto|lia]|].
  destruct (IH (cell_step' inputs s i)) as [H1 H2].
  destruct (cell_step_diagnostics inputs s i) as [G1 G2].
  split; [tauto|]. rewrite H2, G2, filter_cons.
  destruct (Nat.eqb_spec i 1); destruct (decide (i = 1%nat)); simpl;
    try lia; contradiction.
Qed.

Lemma ones_in_seq L :
  length (filter (λ i, i = 1%nat) (seq 0 L)) = if (1 <? L)%nat then 1%nat else 0%nat.
Proof.
  destruct L as [|[|L]]; try reflexivity.
  simpl seq. rewrite filter_cons_False by lia. rewrite filter_cons_True by lia.
  simpl. f_equal.
  assert (H : ∀ a, (2 <= a)%nat → filter (λ i, i = 1%nat) (seq a L) = []).
  { induction L as [|L IH]; intros a Ha; simpl; [reflexivity|].
    rewrite filter_cons_False by lia. apply IH. lia. }
  rewrite H by lia. reflexivity.
Qed.

Lemma time_step_diagnostics s t :
  (diagnostics_nonneg s.2 → diagnostics_nonneg (time_step' s t).2)
  ∧ length (expected_reward_vector (time_step' s t).2)
    = (length (expected_reward_vector s.2)
       + if (1 <? num_pred_cells par)%nat then 1 else 0)%nat.
Proof.
  destruct s as [k0 r0]. unfold time_step.
  match goal with
  | |- context [fold_left (cell_step' ?i) ?l ?s0] =>
      generalize (cells_diagnostics i l s0);
      destruct (fold_left (cell_step' i) l s0) as [k r]
  end.
  rewrite ones_in_seq. simpl. intros [H1 H2]. split.
  - intros Hr. apply H1 in Hr. exact Hr.
  - exact H2.
Qed.

Lemma run_diagnostics n :
  diagnostics_nonneg (run_steps' n).2
  ∧ length (expected_reward_vector (run_steps' n).2)
    = (n * if (1 <? num_pred_cells par)%nat then 1 else 0)%nat.
Proof.
  induction n as [|n [IH1 IH2]].
  - split; [|reflexivity]. unfold run_steps, diagnostics_nonneg. simpl.
    repeat split; apply Forall_replicate; constructor.
  - rewrite run_steps_S.
    destruct (time_step_diagnostics (run_steps' n) n) as [H1 H2].
    split; [apply H1, IH1|]. rewrite H2, IH2. lia.
Qed.

(** Every prediction-error diagnostic that the loop records (the stimulus,
    reward, action and total error of every cell, step and polarity) is at
    least 0, and so is the mean that the prediction loss multiplies with
    the error cost. *)
Theorem prediction_errors_nonneg :
  let r := (rnn_cell_loop par var_dict sigmoid tanh softmax multinomial
              make_inputs agent_action).2 in
  diagnostics_nonneg r
  ∧ 0 <= mean1 (concat (total_pred_error r))
  ∧ pred_loss par r = error_cost par * mean1 (concat (total_pred_error r)).
Proof.
  cbv zeta. destruct (run_diagnostics (num_time_steps par)) as [H _].
  split; [exact H|]. split; [|reflexivity].
  apply mean1_nonneg, Forall_concat. apply H.
Qed.

(** The expected-reward record has one entry per time step when the stack
    has at least two cells, and none when it has fewer: only cell 1
    appends to it. *)
Theorem expected_reward_vector_length :
  length (expected_reward_vector
            (rnn_cell_loop par var_dict sigmoid tanh softmax multinomial
               make_inputs agent_action).2)
  = if (1 <? num_pred_cells par)%nat then num_time_steps par else 0%nat.
Proof.
  destruct (run_diagnostics (num_time_steps par)) as [_ H].
  unfold rnn_cell_loop. rewrite H.
  destruct (1 <? num_pred_cells par)%nat; lia.
Qed.

End Diagnostics.

(** ** The two halves of the error signal *)

Lemma relu_cases d :
  (0 <= d ∧ relu d == d ∧ relu (- d) == 0)
  ∨ (d <= 0 ∧ relu d == 0 ∧ relu (- d) == - d).
Proof.
  unfold relu. destruct (Qlt_le_dec d 0) as [Hd|Hd].
  - right. split; [lra|]. split.
    + apply Q.max_l. lra.
    + apply Q.max_r. lra.
  - left. split; [exact Hd|]. split.
    + apply Q.max_r. exact Hd.
    + apply Q.max_l. lra.
Qed.

Lemma relu_proper d d' : d == d' → relu d == relu d'.
Proof. intros H. unfold relu. rewrite H. reflexivity. Qed.

(** A matrix combined with a bias of one row. *)
Lemma entry2_bias f X brow r j a bj :
  Forall (λ w, w = length brow) (widths X) →
  entry2 X r j = Some a → brow !! j = Some bj →
  entry2 (bop2 f X [brow]) r j = Some (f a bj).
Proof.
  intros Hw Ha Hb. unfold bop2. rewrite bcast_singleton_r.
  unfold entry2 in *. rewrite list_lookup_fmap.
  destruct (X !! r) as [row|] eqn:Hrow; [simpl in *|discriminate].
  assert (Hl : length row = length brow).
  { unfold widths in Hw. rewrite Forall_fmap in Hw.
    exact (Forall_lookup_1 _ _ _ _ Hw Hrow). }
  rewrite bcast_zip by exact Hl. rewrite lookup_zip_with, Ha, Hb. reflexivity.
Qed.

Lemma widths_bias f X brow :
  Forall (λ w, w = length brow) (widths X) → widths (bop2 f X [brow]) = widths X.
Proof.
  intros Hw. unfold bop2. rewrite bcast_singleton_r. unfold widths in *.
  rewrite <- list_fmap_compose. apply Forall_fmap_ext.
  rewrite Forall_fmap in Hw. eapply Forall_impl; [exact Hw|].
  intros row Hl. simpl in *. rewrite bcast_zip by exact Hl.
  rewrite length_zip_with. lia.
Qed.

(** Where the input, the linear prediction [h @ W_pred] and the one-row
    bias agree in width, the two halves of the error signal are the
    positive and the negative part of the residual [x - (h @ W_pred +
    b_pred)]: at every position one of them is 0, their difference is the
    residual and their maximum is its absolute value. *)
Theorem error_halves_complementary vd x h cell_num brow r j a p bj :
  widths x = widths (matmul h (W_pred vd !!! cell_num)) →
  b_pred vd !!! cell_num = [brow] →
  Forall (λ w, w = length brow) (widths x) →
  entry2 x r j = Some a →
  entry2 (matmul h (W_pred vd !!! cell_num)) r j = Some p →
  brow !! j = Some bj →
  ∃ u v,
    entry2 (pos_err vd x h cell_num) r j = Some u
    ∧ entry2 (neg_err vd x h cell_num) r j = Some v
    ∧ u * v == 0
    ∧ u - v == a - (p + bj)
    ∧ Qmax u v == Qabs (a - (p + bj)).
Proof.
  intros Hw Hb Hlen Ha Hp Hbj.
  exists (relu (a - p - bj)), (relu (p + bj - a)).
  assert (Hpos : entry2 (pos_err vd x h cell_num) r j
                 = Some (relu (a - p - bj))).
  { unfold pos_err, relu2, sub2. rewrite entry2_map2, Hb.
    rewrite (entry2_bias Qminus _ brow r j (a - p) bj); [reflexivity| |  |exact Hbj].
    - rewrite bop2_same by exact Hw. rewrite widths_zip by exact Hw.
      exact Hlen.
    - rewrite bop2_same by exact Hw. apply entry2_zip; assumption. }
  assert (Hneg : entry2 (neg_err vd x h cell_num) r j
                 = Some (relu (p + bj - a))).
  { unfold neg_err, relu2, sub2, add2. rewrite entry2_map2, Hb.
    assert (Hlen' : Forall (λ w, w = length brow)
                      (widths (matmul h (W_pred vd !!! cell_num))))
      by (rewrite <- Hw; exact Hlen).
    rewrite bop2_same by (rewrite widths_bias by exact Hlen'; symmetry; exact Hw).
    rewrite (entry2_zip Qminus _ _ r j (p + bj) a); [reflexivity| |exact Ha].
    apply entry2_bias; assumption. }
  split; [exact Hpos|]. split; [exact Hneg|].
  assert (Hopp : p + bj - a == - (a - p - bj)) by ring.
  rewrite (relu_proper _ _ Hopp).
  destruct (relu_cases (a - p - bj)) as [(Hd & E1 & E2)|(Hd & E1 & E2)];
    rewrite E1, E2.
  - split; [ring|]. split; [ring|].
    rewrite Q.max_l by exact Hd. rewrite Qabs_pos by lra. ring.
  - split; [ring|]. split; [ring|].
    rewrite Q.max_r by lra. rewrite Qabs_neg by lra. ring.
Qed.

(** The first step of the small run: the input of cell 0 at batch row 0,
    channel 1 is 4 and is predicted as 0. *)
Lemma error_halves_complementary_witness :
  ∃ u v,
    entry2 (pos_err Run.var_dict [[3; 4; 0; 0; 0]; [3; 4; 0; 0; 0]]
              [[0]; [0]] 0) 0 1 = Some u
    ∧ entry2 (neg_err Run.var_dict [[3; 4; 0; 0; 0]; [3; 4; 0; 0; 0]]
                [[0]; [0]] 0) 0 1 = Some v
    ∧ u * v == 0.
Proof.
  destruct (error_halves_complementary Run.var_dict
              [[3; 4; 0; 0; 0]; [3; 4; 0; 0; 0]] [[0]; [0]] 0
              [0; 0; 0; 0; 0] 0 1 4 0 0)
    as (u & v & Hu & Hv & Huv & _).
  - vm_compute. reflexivity.
  - reflexivity.
  - vm_compute. repeat constructor.
  - reflexivity.
  - vm_compute. reflexivity.
  - reflexivity.
  - exists u, v. split; [exact Hu|]. split; [exact Hv | exact Huv].
Defined.

(** ** The accumulators of the path-integral method *)

Lemma dominated_widths S D : dominated S D → widths D = widths S.
Proof.
  induction 1 as [|s d S D Hsd _ IH]; simpl; [reflexivity|].
  f_equal; [|exact IH]. symmetry. eapply Forall2_length, Hsd.
Qed.

Lemma dominated_step S D E :
  dominated S D → widths E = widths S →
  dominated (add2 S E) (add2 D (abs2 E)).
Proof.
  intros Hd Hw. unfold add2, abs2.
  pose proof (dominated_widths S D Hd) as HwD.
  rewrite !bop2_same
    by (rewrite ?widths_map2; congruence).
  revert E Hw. clear HwD.
  induction Hd as [|s d S D Hsd _ IH]; intros [|e E] Hw; simpl in *;
    try discriminate; constructor.
  - injection Hw as Hl _. clear -Hsd Hl. revert e Hl.
    induction Hsd as [|x y s d Hxy _ IHr]; intros [|z e] Hl; simpl in *;
      try discriminate; constructor.
    + pose proof (Qabs_triangle x z). lra.
    + apply IHr. lia.
  - apply IH. injection Hw as _ Hw. exact Hw.
Qed.

Lemma dominated_zeros v : dominated (zeros_like2 v) (zeros_like2 v).
Proof.
  unfold dominated, zeros_like2, map2.
  apply Forall2_fmap, Forall_Forall2_diag, Forall_true. intros row.
  apply Forall2_fmap, Forall_Forall2_diag, Forall_true. intros x. simpl.
  apply Qle_refl.
Qed.

Lemma init_stab_lookup vars n v :
  NoDup vars.*1 → (n, v) ∈ vars →
  small_omega_var (init_stab vars) !!! n = zeros_like2 v
  ∧ small_omega_var_div (init_stab vars) !!! n = zeros_like2 v
  ∧ big_omega_var (init_stab vars) !!! n = zeros_like2 v.
Proof.
  intros Hnd Hin. unfold init_stab. simpl.
  assert (H : (list_to_map ((λ '(n, v), (n, zeros_like2 v)) <$> vars)
                 : gmap string tensor2) !! n = Some (zeros_like2 v)).
  { apply elem_of_list_to_map_1.
    - rewrite <- list_fmap_compose.
      erewrite list_fmap_ext; [exact Hnd|]. intros i [n' v'] _. reflexivity.
    - apply list_elem_of_fmap. exists (n, v). split; [reflexivity|exact Hin]. }
  rewrite !lookup_total_alt, H. repeat split.
Qed.

Section Accumulators.

Variable par : Par.
Variable vars : list (string * tensor2).
Hypothesis Hrl : training_method par = "RL"%string.
Hypothesis Hnames : NoDup vars.*1.

Lemma update_small_omega_lookup d g cur prev s n :
  n ∈ vars.*1 →
  small_omega_var (update_small_omega par vars d g cur prev s) !!! n
  = add2 (small_omega_var s !!! n) (mulc (d !!! n) (cur - prev))
  ∧ small_omega_var_div (update_small_omega par vars d g cur prev s) !!! n
    = add2 (small_omega_var_div s !!! n) (abs2 (mulc (d !!! n) (cur - prev)))
  ∧ big_omega_var (update_small_omega par vars d g cur prev s)
    = big_omega_var s.
Proof.
  intros Hin. unfold update_small_omega.
  destruct (decide (training_method par = "RL"%string)); [|contradiction].
  simpl. split; [|split; [|reflexivity]].
  - apply (keyed_fold_lookup
             (λ n m, <[n := add2 (m !!! n) (mulc (d !!! n) (cur - prev))]> m)
             (λ n a, add2 a (mulc (d !!! n) (cur - prev)))); try assumption.
    + intros. apply lookup_total_insert_eq.
    + intros. apply lookup_total_insert_ne. assumption.
  - apply (keyed_fold_lookup
             (λ n m, <[n := add2 (m !!! n)
                              (abs2 (mulc (d !!! n) (cur - prev)))]> m)
             (λ n a, add2 a (abs2 (mulc (d !!! n) (cur - prev)))));
      try assumption.
    + intros. apply lookup_total_insert_eq.
    + intros. apply lookup_total_insert_ne. assumption.
Qed.

(** In RL mode, after any number of training steps from the initial
    records, every entry of the small accumulator of a variable is in
    absolute value at most the entry of its divisor, provided the optimizer
    deltas have the shape of the variable. *)
Theorem small_omega_dominated steps n v :
  (n, v) ∈ vars →
  Forall (λ step, widths (step.1.1 !!! n) = widths v) steps →
  let s := accumulate par vars steps (init_stab vars) in
  dominated (small_omega_var s !!! n) (small_omega_var_div s !!! n)
  ∧ widths (small_omega_var s !!! n) = widths v
  ∧ big_omega_var s = big_omega_var (init_stab vars).
Proof.
  intros Hin Hsteps. cbv zeta.
  assert (Hn : n ∈ vars.*1).
  { apply list_elem_of_fmap. exists (n, v). split; [reflexivity|exact Hin]. }
  destruct (init_stab_lookup vars n v Hnames Hin) as (I1 & I2 & _).
  assert (Hgen : ∀ s0,
             dominated (small_omega_var s0 !!! n) (small_omega_var_div s0 !!! n) →
             widths (small_omega_var s0 !!! n) = widths v →
             dominated (small_omega_var (accumulate par vars steps s0) !!! n)
                       (small_omega_var_div (accumulate par vars steps s0) !!! n)
             ∧ widths (small_omega_var (accumulate par vars steps s0) !!! n)
               = widths v
             ∧ big_omega_var (accumulate par vars steps s0) = big_omega_var s0).
  { induction Hsteps as [|[[d cur] prev] steps Hd _ IH]; intros s0 Hdom Hw.
    - repeat split; assumption.
    - simpl in Hd. unfold accumulate. simpl fold_left.
      fold (accumulate par vars steps
              (update_small_omega par vars d ∅ cur prev s0)).
      destruct (update_small_omega_lookup d ∅ cur prev s0 n Hn)
        as (E1 & E2 & E3).
      destruct (IH (update_small_omega par vars d ∅ cur prev s0))
        as (J1 & J2 & J3).
      + rewrite E1, E2. apply dominated_step; [exact Hdom|].
        unfold mulc. rewrite widths_map2. congruence.
      + rewrite E1. unfold add2, mulc.
        rewrite bop2_same by (rewrite widths_map2; congruence).
        rewrite widths_zip by (rewrite widths_map2; congruence). exact Hw.
      + repeat split; [exact J1 | exact J2 | congruence]. }
  apply Hgen.
  - rewrite I1, I2. apply dominated_zeros.
  - rewrite I1. apply widths_map2.
Qed.

End Accumulators.

Lemma increment_entry xi sm d :
  0 < xi → Qabs sm <= d → 0 <= Qabs sm / (xi + d) ∧ Qabs sm / (xi + d) < 1.
Proof.
  intros Hxi Hd. pose proof (Qabs_nonneg sm) as Hs. split.
  - apply Qle_shift_div_l; lra.
  - apply Qlt_shift_div_r; lra.
Qed.

Lemma increment_rows xi B S D :
  0 < xi → dominated S D → widths B = widths S →
  Forall2 (Forall2 (λ b b', b <= b' ∧ b' < b + 1)) B
    (zip_with (zip_with Qplus) B
       (zip_with (zip_with Qdiv) (map2 Qabs S) (map2 (Qplus xi) D))).
Proof.
  intros Hxi Hd. revert B.
  induction Hd as [|s d S D Hsd _ IH]; intros [|b B] Hw; simpl in *;
    try discriminate; constructor.
  - injection Hw as Hl _. clear -Hxi Hsd Hl. revert b Hl.
    induction Hsd as [|x y s d Hxy _ IHr]; intros [|z b] Hl; simpl in *;
      try discriminate; constructor.
    + destruct (increment_entry xi x y Hxi Hxy). split; lra.
    + apply IHr. lia.
  - apply IH. injection Hw as _ Hw. exact Hw.
Qed.

(** In RL mode with a positive [omega_xi], where the small accumulator of a
    variable is dominated by its divisor (as it is after any number of
    training steps), [update_big_omega] raises no entry of the importance
    weight by 1 or more and lowers none: importance only grows, by less
    than 1 per consolidation. *)
Theorem importance_grows_by_less_than_one par vars s n :
  training_method par = "RL"%string → NoDup vars.*1 → n ∈ vars.*1 →
  0 < omega_xi par →
  dominated (small_omega_var s !!! n) (small_omega_var_div s !!! n) →
  widths (big_omega_var s !!! n) = widths (small_omega_var s !!! n) →
  Forall2 (Forall2 (λ b b', b <= b' ∧ b' < b + 1))
    (big_omega_var s !!! n)
    (big_omega_var (update_big_omega par vars s) !!! n).
Proof.
  intros Hrl Hnd Hin Hxi Hd Hw.
  rewrite (update_big_omega_lookup par vars Hrl Hnd s n Hin).
  pose proof (dominated_widths _ _ Hd) as HwD.
  unfold add2, div2, abs2.
  rewrite (bop2_same Qdiv) by (rewrite !widths_map2; congruence).
  rewrite (bop2_same Qplus)
    by (rewrite widths_zip; rewrite !widths_map2; congruence).
  apply increment_rows; assumption.
Qed.

(** The one-variable state after one training step. *)
Lemma small_omega_dominated_witness :
  dominated (small_omega_var stab_after_step !!! "network/Wf0"%string)
            (small_omega_var_div stab_after_step !!! "network/Wf0"%string).
Proof.
  assert (Hnd : NoDup one_var.*1)
    by (apply NoDup_cons; split; [apply not_elem_of_nil | apply NoDup_nil_2]).
  apply (small_omega_dominated Run.par one_var eq_refl Hnd
           [({[ "network/Wf0"%string := [[1]] ]}, -1, 0)]
           "network/Wf0"%string [[1]]).
  - apply list_elem_of_singleton. reflexivity.
  - repeat constructor.
Defined.

Lemma importance_grows_by_less_than_one_witness :
  Forall2 (Forall2 (λ b b', b <= b' ∧ b' < b + 1))
    (big_omega_var stab_after_step !!! "network/Wf0"%string)
    (big_omega_var (update_big_omega Run.par one_var stab_after_step)
       !!! "network/Wf0"%string).
Proof.
  assert (Hnd : NoDup one_var.*1)
    by (apply NoDup_cons; split; [apply not_elem_of_nil | apply NoDup_nil_2]).
  apply (importance_grows_by_less_than_one Run.par one_var stab_after_step
           "network/Wf0"%string eq_refl Hnd).
  - apply list_elem_of_singleton. reflexivity.
  - reflexivity.
  - vm_compute. repeat constructor. intros H. discriminate H.
  - vm_compute. reflexivity.
Defined.

(** * The names of the variables *)

Lemma str_inj i j : str i = str j → i = j.
Proof.
  unfold str. intros H.
  assert (Hu : Some (Nat.to_uint i) = Some (Nat.to_uint j))
    by (rewrite <- !NilEmpty.usu; rewrite H; reflexivity).
  injection Hu as Hu.
  rewrite <- (DecimalNat.Unsigned.of_to i), <- (DecimalNat.Unsigned.of_to j).
  rewrite Hu. reflexivity.
Qed.

Lemma trainable_names par vd :
  (trainable_variables par vd).*1
  = concat ((λ p, (λ i, scoped (p ++ str i)) <$> seq 0 (num_pred_cells par))
            <$> (lstm_var_prefixes vd).*1)
    ++ (scoped <$> (rl_var_prefixes vd).*1).
Proof.
  unfold trainable_variables, lstm_var_prefixes, rl_var_prefixes.
  cbn [fmap list_fmap concat fst].
  rewrite !fmap_app, <- !list_fmap_compose. reflexivity.
Qed.

Ltac name_in_block H :=
  apply list_elem_of_fmap in H as (? & H & _);
  unfold scoped in H; simpl in H; discriminate H.

Ltac name_in_rest H :=
  repeat first
    [ apply elem_of_app in H as [H|H]; [name_in_block H|]
    | apply elem_of_cons in H as [H|H];
      [unfold scoped in H; simpl in H; discriminate H|]
    | apply elem_of_nil in H; destruct H ].

Lemma block_names_distinct p n :
  NoDup ((λ i, scoped (p ++ str i)) <$> seq 0 n).
Proof.
  apply NoDup_fmap_2; [|apply NoDup_seq].
  intros i j H. unfold scoped in H. apply str_inj.
  apply (inj (String.app p)), (inj (String.app "network/")). exact H.
Qed.

(** The variables [declare_variables] creates have pairwise different
    names, whatever the number of cells, and there are 14 per cell and 4
    more: the dictionaries of [optimize] and [pathint_stabilization], keyed
    by [var.op.name], hold one record per variable. *)
Theorem trainable_names_distinct par vd :
  NoDup (trainable_variables par vd).*1
  ∧ length (trainable_variables par vd) = (14 * num_pred_cells par + 4)%nat.
Proof.
  split.
  - rewrite trainable_names. unfold lstm_var_prefixes, rl_var_prefixes.
    cbn [fmap list_fmap concat fst]. rewrite <- !app_assoc.
    repeat (apply NoDup_app; split; [apply block_names_distinct|];
            split; [intros x Hx Hy;
                    apply list_elem_of_fmap in Hx as (i & -> & _);
                    name_in_rest Hy|]).
    rewrite app_nil_l.
    repeat (apply NoDup_cons; split;
            [intros Hy; name_in_rest Hy|]).
    apply NoDup_nil_2.
  - unfold trainable_variables, lstm_var_prefixes, rl_var_prefixes.
    cbn [fmap list_fmap concat].
    rewrite !length_app, !length_fmap, !length_seq. simpl. lia.
Qed.

(** * [reset_weights] on the declared variables *)

Lemma digits_without_b u : contains "b" (NilEmpty.string_of_uint u) = false.
Proof. induction u; simpl; try reflexivity; exact IHu. Qed.

Lemma digits_without_W u : contains "W" (NilEmpty.string_of_uint u) = false.
Proof. induction u; simpl; try reflexivity; exact IHu. Qed.

(** In the name of a declared variable the letters [b] and [W] occur only
    right after the scope, and the names without them start with [U]. *)
Lemma trainable_names_by_letter par vd :
  Forall (λ nv, contains "b" nv.1 = starts_with "network/b" nv.1
                ∧ contains "W" nv.1 = starts_with "network/W" nv.1
                ∧ starts_with "network/U" nv.1
                  = negb (starts_with "network/b" nv.1
                          || starts_with "network/W" nv.1))
         (trainable_variables par vd).
Proof.
  unfold trainable_variables. apply Forall_app. split.
  - apply Forall_concat. unfold lstm_var_prefixes.
    repeat (apply Forall_cons; split);
      try (apply Forall_fmap, Forall_true; intros i; unfold str; simpl;
           repeat split;
           first [reflexivity | apply digits_without_b
                 | apply digits_without_W]).
    apply Forall_nil_2.
  - unfold rl_var_prefixes. repeat (apply Forall_cons; split);
      try (repeat split; reflexivity). apply Forall_nil_2.
Qed.

(** Running [self.reset_weights] on the declared variables sets the biases
    to zero, draws the input, prediction and head weights anew and leaves
    the recurrent weights ([Uf], [Ui], [Uo], [Uc] of every cell) as they
    are: their names hold neither [b] nor [W]. *)
Theorem reset_weights_spares_recurrent_weights initialize_weight par vd k n v :
  trainable_variables par vd !! k = Some (n, v) →
  reset_weights initialize_weight (trainable_variables par vd) !! k
  = Some (n, if starts_with "network/U" n then v
             else if starts_with "network/b" n then mulc v 0
             else initialize_weight k (shape2 v))
  ∧ starts_with "network/U" n
    = negb (starts_with "network/b" n || starts_with "network/W" n).
Proof.
  intros Hk.
  pose proof (Forall_lookup_1 _ _ _ _ (trainable_names_by_letter par vd) Hk)
    as (Hb & HW & HU).
  cbn [fst] in Hb, HW, HU. split; [|exact HU].
  unfold reset_weights. rewrite list_lookup_imap, Hk.
  cbn [fmap option_fmap option_map]. rewrite Hb, HW, HU.
  destruct (starts_with "network/b" n); [reflexivity|].
  destruct (starts_with "network/W" n); reflexivity.
Qed.

(** The recurrent weight [Uf] of cell 0 of the small network. *)
Lemma reset_weights_spares_recurrent_weights_witness :
  reset_weights (λ _ _, [[7]]) (trainable_variables Run.par var_dict_negative)
    !! 8%nat
  = Some ("network/Uf0"%string, [[-1]]).
Proof.
  destruct (reset_weights_spares_recurrent_weights (λ _ _, [[7]]) Run.par
              var_dict_negative 8 "network/Uf0" [[-1]]) as [H _].
  - vm_compute. reflexivity.
  - exact H.
Defined.

(** * The training loop *)

Lemma update_small_omega_big par vars d g c p s :
  big_omega_var (update_small_omega par vars d g c p s) = big_omega_var s.
Proof. unfold update_small_omega. repeat case_decide; reflexivity. Qed.

Lemma init_big_zero vars n :
  Forall (Forall (λ v, v == 0)) (big_omega_var (init_stab vars) !!! n).
Proof.
  unfold init_stab. simpl. rewrite lookup_total_alt.
  destruct (_ !! n) as [z|] eqn:E; simpl; [|constructor].
  apply elem_of_list_to_map_2 in E.
  apply list_elem_of_fmap in E as ([m v] & [= -> ->] & _).
  unfold zeros_like2, map2. apply Forall_fmap, Forall_true. intros row.
  simpl. apply Forall_fmap, Forall_true. intros q. simpl. reflexivity.
Qed.

Lemma bcast_zero_row zr xr :
  Forall (λ v, v == 0) zr → Forall (λ v, v == 0) (bcast Qmult zr xr).
Proof.
  intros Hz. unfold bcast.
  destruct zr as [|z [|z' zr]].
  - destruct xr as [|x [|x' xr]]; constructor.
  - apply Forall_fmap, Forall_true. intros x. simpl.
    apply Forall_inv in Hz. rewrite Hz. ring.
  - destruct xr as [|x [|x' xr]].
    + constructor.
    + apply Forall_fmap. eapply Forall_impl; [exact Hz|].
      intros q Hq. simpl. rewrite Hq. ring.
    + revert Hz. generalize (z :: z' :: zr). generalize (x :: x' :: xr).
      intros l1 l2 Hz. revert l1.
      induction Hz as [|q l2 Hq _ IH]; intros [|y l1]; simpl; constructor.
      * rewrite Hq. ring.
      * apply IH.
Qed.

Lemma mul2_zero_left Z X :
  Forall (Forall (λ v, v == 0)) Z → Forall (Forall (λ v, v == 0)) (mul2 Z X).
Proof.
  intros Hz. unfold mul2, bop2. unfold bcast at 1.
  destruct Z as [|z [|z' Z]].
  - destruct X as [|x [|x' X]]; constructor.
  - apply Forall_fmap, Forall_true. intros x. simpl.
    apply bcast_zero_row. apply Forall_inv in Hz. exact Hz.
  - destruct X as [|x [|x' X]].
    + constructor.
    + apply Forall_fmap. eapply Forall_impl; [exact Hz|].
      intros q Hq. simpl. apply bcast_zero_row. exact Hq.
    + revert Hz. generalize (z :: z' :: Z). generalize (x :: x' :: X).
      intros l1 l2 Hz. revert l1.
      induction Hz as [|q l2 Hq _ IH]; intros [|y l1]; simpl; constructor.
      * apply bcast_zero_row. exact Hq.
      * apply IH.
Qed.

Lemma sum1_zero l : Forall (λ v, v == 0) l → sum1 l == 0.
Proof.
  induction 1 as [|q l Hq _ IH]; simpl; [reflexivity|].
  rewrite Hq, IH. ring.
Qed.

Lemma aux_loss_zero par ws s :
  (∀ n, Forall (Forall (λ v, v == 0)) (big_omega_var s !!! n)) →
  aux_loss par ws s == 0.
Proof.
  intros Hz. unfold aux_loss. apply sum1_zero, Forall_fmap, Forall_true.
  intros [n w]. simpl.
  rewrite (sum1_zero (flat2 _)); [ring|].
  unfold flat2. apply Forall_concat, mul2_zero_left, Hz.
Qed.

Section TrainingProps.

Variable par : Par.
Variable batch : nat → Batch.

Lemma iteration_big i s s' :
  iteration par batch i s = inr s' →
  big_omega_var (session_stab s') = big_omega_var (session_stab s).
Proof.
  unfold iteration. repeat case_decide; try discriminate.
  intros [= <-]. simpl.
  destruct (0 <? i)%nat; rewrite ?update_small_omega_big; reflexivity.
Qed.

Lemma iterate_big todo s :
  big_omega_var (session_stab (iterate par batch todo s).1)
  = big_omega_var (session_stab s).
Proof.
  revert s. induction todo as [|i todo IH]; intros s; simpl; [reflexivity|].
  destruct (iteration par batch i s) as [e|s'] eqn:Hi; [reflexivity|].
  destruct (reached_threshold _ _); [|rewrite IH]; simpl;
    eapply iteration_big; eauto.
Qed.

Lemma training_loop_big n vars :
  big_omega_var (session_stab (training_loop par n batch vars).1)
  = big_omega_var (init_stab vars).
Proof.
  unfold training_loop.
  pose proof (iterate_big (seq 0 n) (session_start vars)) as H.
  destruct (iterate par batch (seq 0 n) (session_start vars)) as [s [e|]];
    simpl in *; [exact H|].
  unfold session_end. simpl. case_decide; simpl; exact H.
Qed.

(** Training never consolidates.  Whatever the batches, the number of
    iterations, the stabilization method and whether the loop ends by
    itself, stops early or raises: the importance weights [big_omega_var]
    are, after any number [m] of iterations and when the loop is left,
    the zeros they were initialized with, and the penalty [aux_loss] is 0
    for any values [ws] of the variables. *)
Theorem training_never_consolidates n vars m ws :
  big_omega_var (session_stab (iterate par batch (seq 0 m)
                                 (session_start vars)).1)
  = big_omega_var (init_stab vars)
  ∧ big_omega_var (session_stab (training_loop par n batch vars).1)
    = big_omega_var (init_stab vars)
  ∧ aux_loss par ws (session_stab (iterate par batch (seq 0 m)
                                     (session_start vars)).1) == 0
  ∧ aux_loss par ws (session_stab (training_loop par n batch vars).1) == 0.
Proof.
  assert (H1 := iterate_big (seq 0 m) (session_start vars)).
  assert (H2 := training_loop_big n vars).
  simpl in H1. split; [exact H1|]. split; [exact H2|]. split.
  - apply aux_loss_zero. intros k. rewrite H1. apply init_big_zero.
  - apply aux_loss_zero. intros k. rewrite H2. apply init_big_zero.
Qed.


Hypothesis Hpathint : stabilization par = "pathint"%string.
Hypothesis Hrl : training_method par = "RL"%string.

Lemma iterate_runs m k s :
  (iterate par batch (seq k m) s).2 = None
  ∧ ∃ d, length (accuracy_iter (iterate par batch (seq k m) s).1)
         = (length (accuracy_iter s) + d)%nat
         ∧ (d ≤ m)%nat ∧ (d = m ∨ (5001 < Z.of_nat (k + d))%Z).
Proof.
  revert k s. induction m as [|m IH]; intros k s; simpl.
  - split; [reflexivity|]. exists 0%nat.
    rewrite Nat.add_0_r. repeat split; [lia|left; reflexivity].
  - unfold iteration. rewrite !decide_True by assumption.
    match goal with |- context [reached_threshold k ?a] =>
      destruct (reached_threshold k a) eqn:Hth end.
    + simpl. split; [reflexivity|]. exists 1%nat.
      rewrite length_app. simpl. split; [reflexivity|]. split; [lia|].
      right. unfold reached_threshold in Hth.
      apply andb_true_iff in Hth as [Hk _]. apply Z.ltb_lt in Hk. lia.
    + match goal with |- context [iterate par batch (seq (S k) m) ?s'] =>
        destruct (IH (S k) s') as (Hn & d & Hd & Hle & Hor) end.
      split; [exact Hn|]. exists (S d). rewrite Hd. simpl.
      rewrite length_app. simpl. split; [lia|]. split; [lia|].
      destruct Hor; [left|right]; lia.
Qed.


End TrainingProps.



(** * The bootstrap target at the horizon *)

Lemma entry3_same_shape a a' t b j x :
  shape3 a = shape3 a' → entry3 a t b j = Some x →
  ∃ y, entry3 a' t b j = Some y.
Proof.
  unfold shape3, widths, entry3, entry2. intros Hs Hx.
  assert (Ht := f_equal (.!! t) Hs). simpl in Ht.
  rewrite !list_lookup_fmap in Ht.
  destruct (a !! t) as [m|]; [simpl in *|discriminate].
  destruct (a' !! t) as [m'|]; [simpl in *|discriminate].
  injection Ht as Ht. assert (Hb := f_equal (.!! b) Ht). simpl in Hb.
  rewrite !list_lookup_fmap in Hb.
  destruct (m !! b) as [row|]; [simpl in *|discriminate].
  destruct (m' !! b) as [row'|]; [simpl in *|discriminate].
  injection Hb as Hb. apply lookup_lt_is_Some. rewrite <- Hb.
  apply lookup_lt_is_Some. eauto.
Qed.

Lemma entry2_fill rows cols c b j v :
  entry2 (fill2 rows cols c) b j = Some v → v = c.
Proof.
  unfold entry2, fill2. intros H.
  destruct (replicate rows (replicate cols c) !! b) as [row|] eqn:E;
    [simpl in H|discriminate].
  apply lookup_replicate in E as [-> _].
  apply lookup_replicate in H as [-> _]. reflexivity.
Qed.

(** At the last step the bootstrap target is the reward, whether the step
    is terminal or not: the value estimate after the last step is the
    matrix of zeros that [optimize] appends to the value outputs. *)
Theorem pred_val_at_horizon par r t b j rw :
  shape3 (reward_rec r) = shape3 (drop 1 (val_out par r)) →
  length (val_out_rec r) = S t →
  entry3 (reward_rec r) t b j = Some rw →
  entry3 (drop 1 (val_out par r)) t b j = Some 0
  ∧ ∃ p, entry3 (pred_val par r) t b j = Some p ∧ p == rw.
Proof.
  intros Hs Hlen Hr.
  destruct (entry3_same_shape _ _ t b j rw Hs Hr) as [vnext Hv].
  assert (H0 : vnext = 0).
  { revert Hv. unfold entry3, val_out. rewrite lookup_drop.
    rewrite lookup_app_r by lia.
    replace (1 + t - length (val_out_rec r))%nat with 0%nat by lia.
    simpl. apply entry2_fill. }
  subst vnext. split; [exact Hv|].
  destruct (entry3_same_shape (reward_rec r) (terminal_state r) t b j rw)
    as [ts Hts]; [|exact Hr|].
  { unfold terminal_state. rewrite shape3_map3. reflexivity. }
  exists (rw + discount_rate par * 0 * (1 - ts)). split; [|ring].
  unfold pred_val, add3, mul3, scale3.
  assert (Hx : shape3 (map3 (Qmult (discount_rate par)) (drop 1 (val_out par r)))
               = shape3 (map3 (λ v, 1 - v) (terminal_state r))).
  { unfold terminal_state. rewrite !shape3_map3. symmetry. exact Hs. }
  assert (Hy : shape3 (reward_rec r)
               = shape3 (bop3 Qmult
                           (map3 (Qmult (discount_rate par))
                                 (drop 1 (val_out par r)))
                           (map3 (λ v, 1 - v) (terminal_state r)))).
  { rewrite shape3_bop3 by exact Hx. rewrite shape3_map3. exact Hs. }
  rewrite (bop3_same Qplus) by exact Hy.
  rewrite (bop3_same Qmult) by exact Hx.
  apply entry3_zip; [exact Hr|].
  apply entry3_zip.
  - rewrite entry3_map3, Hv. reflexivity.
  - rewrite entry3_map3, Hts. reflexivity.
Qed.

(** The last step of the small run. *)
Lemma pred_val_at_horizon_witness :
  ∃ p, entry3 (pred_val Run.par Run.loop.2) 2 0 0 = Some p ∧ p == 0.
Proof.
  destruct (pred_val_at_horizon Run.par Run.loop.2 2 0 0 0) as [_ H].
  - vm_compute. reflexivity.
  - vm_compute. reflexivity.
  - vm_compute. reflexivity.
  - exact H.
Defined.

(** * The sign of the value loss *)

Lemma zip_with_Forall {A : Type} (P1 P2 P3 : A → Prop) f a b :
  (∀ x y, P1 x → P2 y → P3 (f x y)) →
  Forall P1 a → Forall P2 b → Forall P3 (zip_with f a b).
Proof.
  intros Hf Ha. revert b.
  induction Ha as [|x a Hx _ IH]; intros b Hb; [constructor|].
  destruct Hb as [|y b Hy Hb]; simpl; constructor; [apply Hf|apply IH];
    assumption.
Qed.

Lemma bcast_Forall {A : Type} (P1 P2 P3 : A → Prop) f a b :
  (∀ x y, P1 x → P2 y → P3 (f x y)) →
  Forall P1 a → Forall P2 b → Forall P3 (bcast f a b).
Proof.
  intros Hf Ha Hb. unfold bcast.
  destruct a as [|x [|x' a]].
  - destruct b as [|y [|y' b]]; constructor.
  - apply Forall_fmap. eapply Forall_impl; [exact Hb|].
    intros y Hy. simpl. apply Hf; [apply (Forall_inv Ha)|exact Hy].
  - destruct b as [|y [|y' b]].
    + constructor.
    + apply Forall_fmap. eapply Forall_impl; [exact Ha|].
      intros q Hq. simpl. apply Hf; [exact Hq|apply (Forall_inv Hb)].
    + eapply zip_with_Forall; eassumption.
Qed.

Lemma nonneg3_mul3 a b : nonneg3 a → nonneg3 b → nonneg3 (mul3 a b).
Proof.
  unfold nonneg3, mul3, bop3, bop2. apply bcast_Forall. intros m m'.
  apply bcast_Forall. intros row row'. apply bcast_Forall.
  intros x y Hx Hy. simpl in *. apply Qmult_le_0_compat; assumption.
Qed.

Lemma nonneg3_squares a : nonneg3 (map3 square a).
Proof.
  unfold nonneg3, map3, map2. apply Forall_fmap, Forall_true. intros m.
  simpl. apply Forall_fmap, Forall_true. intros row. simpl.
  apply Forall_fmap, Forall_true. intros x. simpl. unfold square.
  nra.
Qed.

Lemma reduce_mean3_nonneg a : nonneg3 a → 0 <= reduce_mean3 a.
Proof.
  intros Ha. unfold reduce_mean3, flat3.
  apply mean1_nonneg, Forall_concat, Forall_concat. exact Ha.
Qed.

Section ValueLoss.

Variable par : Par.
Variable var_dict : VarDict.
Variables sigmoid tanh : Q → Q.
Variable softmax : tensor2 → tensor2.
Variable multinomial : nat → nat → tensor1 → nat.
Variable make_inputs : nat → tensor1.
Variable agent_action : nat → tensor2 → tensor2 → tensor1.

Hypothesis Hval : n_val par = 1%nat.
Hypothesis Henv : ∀ t a m, length (agent_action t a m) = batch_size par.
Hypothesis Hcost : 0 <= val_cost par.

Lemma mask_rec_nonneg :
  nonneg3 (mask_rec (rnn_cell_loop par var_dict sigmoid tanh softmax
                       multinomial make_inputs agent_action).2).
Proof.
  unfold nonneg3, rnn_cell_loop. apply Forall_lookup_2. intros t m Hm.
  assert (Ht : (t < num_time_steps par)%nat).
  { apply lookup_lt_Some in Hm.
    rewrite (proj1 (recorded_length par var_dict sigmoid tanh softmax
                      multinomial make_inputs agent_action Hval _)) in Hm.
    exact Hm. }
  destruct (recorded par var_dict sigmoid tanh softmax multinomial
              make_inputs agent_action Hval _ t Ht) as [E _].
  rewrite E in Hm. injection Hm as <-.
  destruct (mask_rows par var_dict sigmoid tanh softmax multinomial
              make_inputs agent_action Hval Henv t Ht) as (vm & -> & _ & Hb).
  unfold colT. apply Forall_fmap. eapply Forall_impl; [exact Hb|].
  intros q Hq. simpl. constructor; [|constructor].
  destruct Hq as [Hq|Hq]; rewrite Hq; lra.
Qed.

Lemma time_mask3_nonneg : nonneg3 (time_mask3 par).
Proof.
  unfold nonneg3, time_mask3, time_mask.
  apply Forall_fmap, Forall_replicate. simpl.
  apply Forall_fmap, Forall_replicate. simpl.
  constructor; [lra|constructor].
Qed.

(** With a value cost that is not negative, the value loss of every run is
    not negative: it is the mean of squared differences weighted by the
    masks, which hold zeros and ones. *)
Theorem val_loss_nonneg :
  0 <= val_loss par (rnn_cell_loop par var_dict sigmoid tanh softmax
                       multinomial make_inputs agent_action).2.
Proof.
  unfold val_loss.
  apply Qmult_le_0_compat; [apply Qmult_le_0_compat; [lra|exact Hcost]|].
  apply reduce_mean3_nonneg, nonneg3_mul3; [|apply nonneg3_squares].
  apply nonneg3_mul3; [apply mask_rec_nonneg|apply time_mask3_nonneg].
Qed.

End ValueLoss.

Lemma val_loss_nonneg_witness : 0 <= val_loss Run.par run_trajectory.
Proof.
  apply (val_loss_nonneg Run.par Run.var_dict Run.sigmoid Run.tanh
           Run.softmax Run.multinomial Run.make_inputs Run.agent_action
           eq_refl (λ _ _ _, eq_refl)).
  vm_compute. intros H. discriminate H.
Defined.

(** * The range of the hidden state *)

Section HiddenState.

Variable par : Par.
Variable var_dict : VarDict.
Variables sigmoid tanh : Q → Q.
Variable softmax : tensor2 → tensor2.
Variable multinomial : nat → nat → tensor1 → nat.
Variable make_inputs : nat → tensor1.
Variable agent_action : nat → tensor2 → tensor2 → tensor1.

Local Abbreviation cell_step' := (cell_step par var_dict sigmoid tanh).
Local Abbreviation run_steps' :=
  (run_steps par var_dict sigmoid tanh softmax multinomial make_inputs
     agent_action).

Hypothesis Hsigmoid : ∀ v, 0 <= sigmoid v ∧ sigmoid v <= 1.
Hypothesis Htanh : ∀ v, -1 <= tanh v ∧ tanh v <= 1.

(** The hidden state a cell returns is an output gate times the hyperbolic
    tangent of the cell state. *)
Lemma predictive_cell_within_one erv x y h c i :
  within_one (predictive_cell par var_dict sigmoid tanh erv x y h c i).2.1.1.
Proof.
  unfold predictive_cell. cbv zeta. cbn [fst snd].
  unfold within_one, mul2, bop2.
  apply (bcast_Forall (Forall (λ v, 0 <= v ∧ v <= 1))
                      (Forall (λ v, -1 <= v ∧ v <= 1))).
  - intros row row'.
    apply (bcast_Forall (λ v, 0 <= v ∧ v <= 1) (λ v, -1 <= v ∧ v <= 1)).
    intros a b [Ha1 Ha2] [Hb1 Hb2]. split; nra.
  - unfold gate, map2. apply Forall_fmap, Forall_true. intros row. simpl.
    apply Forall_fmap, Forall_true. intros v. simpl. apply Hsigmoid.
  - unfold map2. apply Forall_fmap, Forall_true. intros row. simpl.
    apply Forall_fmap, Forall_true. intros v. simpl. apply Htanh.
Qed.

Lemma cell_step_within_one inputs s i :
  Forall within_one (h s.1) → Forall within_one (h (cell_step' inputs s i).1).
Proof.
  destruct s as [k r]. intros Hh. unfold cell_step.
  pose proof (predictive_cell_within_one (expected_reward_vector r)
                (cell_input i inputs (error_signal k) (reward k) (action k))
                (if (i =? num_pred_cells par - 1)%nat then None
                 else Some (h k !!! S i))
                (h k !!! i) (c k !!! i) i) as Hp.
  destruct (predictive_cell _ _ _ _ _ _ _ _ _ _) as [erv [[hi ci] err]].
  simpl in *. apply Forall_insert; assumption.
Qed.

Lemma cells_within_one inputs l s :
  Forall within_one (h s.1) →
  Forall within_one (h (fold_left (cell_step' inputs) l s).1).
Proof.
  revert s. induction l as [|i l IH]; intros s Hs; simpl; [exact Hs|].
  apply IH, cell_step_within_one, Hs.
Qed.

(** Where the two activation functions have the ranges of the sigmoid and
    of the hyperbolic tangent, every entry of the hidden state of every
    cell is between -1 and 1 after any number of time steps, whatever the
    weights, the inputs and the rewards. *)
Theorem hidden_state_within_one n : Forall within_one (h (run_steps' n).1).
Proof.
  induction n as [|n IH].
  - unfold run_steps, init_carry. simpl.
    apply Forall_fmap, Forall_true. intros i. simpl.
    unfold within_one, zeros_like2, map2.
    apply Forall_fmap, Forall_true. intros row. simpl.
    apply Forall_fmap, Forall_true. intros v. simpl. split; lra.
  - rewrite run_steps_S. unfold time_step.
    destruct (run_steps' n) as [k0 r0].
    match goal with |- context [fold_left (cell_step' ?inp) ?l ?s0] =>
      pose proof (cells_within_one inp l s0 IH) as H;
      destruct (fold_left (cell_step' inp) l s0) as [k r] end.
    exact H.
Qed.

End HiddenState.

Lemma hard_sigmoid_range v : 0 <= hard_sigmoid v ∧ hard_sigmoid v <= 1.
Proof.
  unfold hard_sigmoid. split; [apply Q.le_max_l|].
  apply Q.max_lub; [lra|apply Q.le_min_l].
Qed.

Lemma hard_tanh_range v : -1 <= hard_tanh v ∧ hard_tanh v <= 1.
Proof.
  unfold hard_tanh. split; [apply Q.le_max_l|].
  apply Q.max_lub; [lra|apply Q.le_min_l].
Qed.

(** The small network with the piecewise-linear activations. *)
Lemma hidden_state_within_one_witness :
  Forall within_one
    (h (run_steps Run.par Run.var_dict hard_sigmoid hard_tanh Run.softmax
          Run.multinomial Run.make_inputs Run.agent_action 3).1).
Proof.
  apply (hidden_state_within_one Run.par Run.var_dict hard_sigmoid hard_tanh
           Run.softmax Run.multinomial Run.make_inputs Run.agent_action
           hard_sigmoid_range hard_tanh_range 3).
Defined.
